(** * Pairwise ranking app: the profile store and its reducers

    A shallow embedding of the state logic of the pairwise ranking app:

    - [ProfileContext] embeds [src/contexts/Profile.js]: the normaliser
      [uniqueByName], the pair generator [createPairs] / [createPairList]
      and the first reducer (add a profile, select a profile).
    - [Reducers] embeds the second reducer file: [reducer], [profileReducer],
      [listReducer] and [pairReducer] (add, select, reset rows, skip, vote).
    - [ProfileContext] also has the selectors [getCurrentProfile],
      [getTotalComparisons] and [getProgress] and the provider's
      [useReducer]; [EditProfile] embeds the save button of the edit form,
      which reads the text area into the list of a new profile.

    JavaScript values are modelled as follows.

    - A plain object used as a dictionary is the finite map of its own
      enumerable properties ([gmap string V]); where the program relies on the
      insertion order of the keys ([Object.values]) it is an association list.
    - Reading [obj[k]] falls back to [Object.prototype] when [k] is no own
      property, so [obj["constructor"]] is a (truthy) function of every plain
      object: [inherited] lists those names, [truthy_at] is the test
      [obj[k]] used as a condition.
    - Writing [obj[k] = v] on an object without an own ["__proto__"] runs the
      setter that [Object.prototype] provides for that name: the object gets
      a new prototype and no own property. [assign] is that write.
    - A pair object is written in place by a skip and is shared by every
      array that holds it: in [Reducers] the arrays of pairs hold references
      into a store of pair objects. All other objects are copied before they
      are changed and are values.
    - A number that is an integer is the integer ([Z]) that the double
      holds, and [x++] stores the double nearest to [x + 1] ([double_of]):
      [x + 1] itself between -2^53 and 2^53, and a rounded value beyond.
      [NaN] is a value of its own where the program can produce it.
    - A string is the sequence of the bytes of its UTF-8 encoding. The
      separators and digits that the program looks for are ASCII; where it
      counts UTF-16 code units ([substring]) the model counts them in the
      encoded characters ([substring_to]).
    - [new Date().getTime()] and [Math.random()] are inputs.
    - The typedefs of [./ProfileStructure] and the action creators of
      [./actions] are not among the sources: the records of [Reducers] have
      the fields that the reducers and the data model name, and an action
      carries the fields of [data] that the reducers read. *)

From Stdlib Require Import ZArith NArith List String Ascii Lia.
From stdpp Require Import gmap strings list fin_maps sorting.

(** ** Plain objects *)

(** The property names every plain object inherits from [Object.prototype]
    (ECMAScript, Annex B included). Each of them reads as a truthy value. *)
Definition Object_prototype : list string :=
  [ "constructor"; "hasOwnProperty"; "isPrototypeOf"; "propertyIsEnumerable";
    "toLocaleString"; "toString"; "valueOf"; "__proto__";
    "__defineGetter__"; "__defineSetter__";
    "__lookupGetter__"; "__lookupSetter__" ]%string.

Definition inherited (k : string) : bool :=
  bool_decide (k ∈ Object_prototype).

(** [obj[k]] used as a condition, for an object whose own values are objects
    (always truthy): an own property, or one found on the prototype. *)
Definition truthy_at {V} (obj : gmap string V) (k : string) : bool :=
  bool_decide (is_Some (obj !! k)) || inherited k.

(** [obj[k] = v]. The name ["__proto__"] is an accessor of the prototype:
    unless the object has an own property of that name, the write replaces
    the prototype of [obj] and adds nothing to its own properties. *)
Definition assign {V} (k : string) (v : V) (obj : gmap string V) : gmap string V :=
  if bool_decide (k = "__proto__"%string) && bool_decide (obj !! k = None)
  then obj
  else <[k:=v]> obj.

(** [{...a, ...b}]: the own properties of [a], overwritten by those of [b]. *)
Definition spread2 {V} (a b : gmap string V) : gmap string V := b ∪ a.

(** The objects of the app are made by [{}], property writes and spreads,
    which never make an own property named ["__proto__"]: an object is plain
    when it is such an object. *)
Definition plain_map {V} (m : gmap string V) : Prop :=
  m !! "__proto__"%string = None.

(** A JavaScript number that is an integer, or [NaN]. *)
Inductive number : Type :=
| Num (z : Z)
| NaN.

#[global] Instance number_eq_dec : EqDecision number.
Proof. solve_decision. Defined.

(** The double nearest to the integer [x], as an integer: a double has a
    significand of 53 bits, so every integer from -2^53 to 2^53 is a double,
    and beyond them the doubles are the multiples of 2, then of 4 and so on;
    an integer halfway between two doubles is rounded to the one whose
    significand is even. (The doubles end below 2^1024; the sum of a double
    and 1 is never rounded beyond the greatest of them.) *)
Definition double_of (x : Z) : Z :=
  let a := Z.abs x in
  let e := Z.log2 a in
  if (e <? 53)%Z then x
  else
    let ulp := (2 ^ (e - 52))%Z in
    let q := (a / ulp)%Z in
    let r := (a mod ulp)%Z in
    let up := (ulp <? 2 * r)%Z || ((2 * r =? ulp)%Z && Z.odd q) in
    (Z.sgn x * ((if up then q + 1 else q) * ulp))%Z.

(** The value [x++] stores: the double nearest to [x + 1]; [undefined] and
    [NaN] give [NaN]. *)
Definition increment (x : option number) : number :=
  match x with
  | Some (Num z) => Num (double_of (z + 1))
  | Some NaN | None => NaN
  end.

(** The outcome of a call: a returned value, or a thrown error. *)
Inductive Error : Type :=
| InvalidProfile (id : string)   (* Error("Invalid profile supplied: '...'") *)
| NoProfileSelected              (* Error("No profile selected!") *)
| TypeError.                     (* thrown by the engine itself *)

Inductive result (A : Type) : Type :=
| Return (a : A)
| Throw (e : Error).
Arguments Return {A} a.
Arguments Throw {A} e.

(** A thrown error ends the evaluation: [x ← call; rest]. *)
#[global] Instance result_bind : MBind result := λ A B f x,
  match x with
  | Return a => f a
  | Throw e => Throw e
  end.

(** ** Arrays *)

(** [arr[i]] for a number [i] that is an integer: [undefined] ([None])
    outside [0 .. length - 1]. *)
Definition Array_get {A} (arr : list A) (i : Z) : option A :=
  if (i <? 0)%Z then None else arr !! Z.to_nat i.

(** [arr.splice(start, 1)] as it leaves [arr]: a negative [start] counts from
    the end, the start is clamped to [0 .. length], and one element is removed
    if there is one at the start. *)
Definition Array_splice1 {A} (start : Z) (arr : list A) : list A :=
  let len := Z.of_nat (length arr) in
  let actualStart :=
    if (start <? 0)%Z then Z.max (len + start) 0 else Z.min start len in
  delete (Z.to_nat actualStart) arr.

(** [arr.findIndex(f)]: the first index whose element satisfies [f], or -1. *)
Fixpoint findIndex_from {A} (f : A → bool) (arr : list A) (i : Z) : Z :=
  match arr with
  | [] => (-1)%Z
  | x :: rest => if f x then i else findIndex_from f rest (i + 1)%Z
  end.

Definition Array_findIndex {A} (f : A → bool) (arr : list A) : Z :=
  findIndex_from f arr 0.

(** [arr.filter((x, index) => f(x, index))]. *)
Fixpoint filter_from {A} (f : A → Z → bool) (arr : list A) (i : Z) : list A :=
  match arr with
  | [] => []
  | x :: rest =>
      if f x i then x :: filter_from f rest (i + 1)%Z
      else filter_from f rest (i + 1)%Z
  end.

Definition Array_filter {A} (f : A → Z → bool) (arr : list A) : list A :=
  filter_from f arr 0.

(** A property key made from a value that is a string or [null]. *)
Definition property_key (k : option string) : string :=
  default "null"%string k.

(** ** Objects with their keys in order *)

(** The own keys of an object as the engine lists them: array indices first,
    ascending, then the other strings in the order of their creation. An array
    index is a canonical decimal numeral below 2^32 - 1. *)
Definition digit (c : ascii) : option N :=
  let n := N_of_ascii c in
  if (48 <=? n)%N && (n <=? 57)%N then Some (n - 48)%N else None.

Fixpoint digits (s : string) (acc : N) : option N :=
  match s with
  | EmptyString => Some acc
  | String c s' =>
      match digit c with
      | Some d => digits s' (10 * acc + d)%N
      | None => None
      end
  end.

Definition array_index (k : string) : option N :=
  match k with
  | EmptyString => None
  | String c rest =>
      if Ascii.eqb c "0"%char
      then (if String.eqb rest EmptyString then Some 0%N else None)
      else match digits k 0 with
           | Some n => if (n <=? 4294967294)%N then Some n else None
           | None => None
           end
  end.

(** [obj[k] = v] on an object whose properties are kept in creation order:
    an existing property keeps its place and takes the new value. *)
Fixpoint put {V} (k : string) (v : V) (obj : list (string * V)) : list (string * V) :=
  match obj with
  | [] => [(k, v)]
  | (k', v') :: rest =>
      if decide (k = k') then (k, v) :: rest else (k', v') :: put k v rest
  end.

(** The same write on an object created by [{}] and filled by such writes
    only: it never has an own ["__proto__"]. *)
Definition assign_ordered {V} (k : string) (v : V) (obj : list (string * V))
  : list (string * V) :=
  if decide (k = "__proto__"%string) then obj else put k v obj.

Definition index_entry {V} (kv : string * V) : option (N * V) :=
  (λ n, (n, kv.2)) <$> array_index kv.1.

Definition index_le {V} (a b : N * V) : Prop := (a.1 ≤ b.1)%N.

#[global] Instance index_le_dec {V} (a b : N * V) : Decision (index_le a b).
Proof. unfold index_le. apply _. Defined.

Definition Object_values {V} (obj : list (string * V)) : list V :=
  (snd <$> merge_sort index_le (omap index_entry obj))
  ++ (snd <$> filter (λ kv, array_index kv.1 = None) obj).

(** One key is listed before another because both are array indices and its
    index is the smaller one. *)
Definition index_before (a b : string) : Prop :=
  match array_index a, array_index b with
  | Some i, Some j => (i < j)%N
  | _, _ => False
  end.

(** Keys in the order in which the engine lists them whatever the order of
    their creation: the array indices ascending, then keys that are no array
    indices. *)
Definition in_key_order (keys : list string) : Prop :=
  ∃ indices others,
    keys = indices ++ others
    ∧ StronglySorted index_before indices
    ∧ Forall (λ k, is_Some (array_index k)) indices
    ∧ Forall (λ k, array_index k = None) others.

(** ** Strings *)

(** A string is the sequence of the bytes of its UTF-8 encoding, and the
    engine counts its UTF-16 code units: a character of one, two or three
    bytes is one code unit, and a character of four bytes is two, a surrogate
    pair. The first of the pair alone, where a cut leaves it, is written as
    the three bytes that the encoding gives to its number. *)
Definition high_surrogate (c0 : ascii) (rest : string) : string :=
  match rest with
  | String c1 (String c2 _) =>
      let cp := ((N_of_ascii c0 mod 8) * 262144 + (N_of_ascii c1 mod 64) * 4096
                 + (N_of_ascii c2 mod 64) * 64)%N in
      let hi := (55296 + (cp - 65536) / 1024)%N in
      String (ascii_of_N 237)
        (String (ascii_of_N (128 + (hi / 64) mod 64))
           (String (ascii_of_N (128 + hi mod 64)) EmptyString))
  | _ => EmptyString
  end.

(** [s.substring(0, units)]: the first [units] code units of [s]. [pending]
    counts the bytes that are still to copy of a character whose code units
    have been counted. *)
Fixpoint substring_to (units pending : nat) (s : string) : string :=
  match s with
  | EmptyString => EmptyString
  | String c rest =>
      match pending with
      | S p => String c (substring_to units p rest)
      | O =>
          match units with
          | O => EmptyString
          | S u =>
              let b := N_of_ascii c in
              if (b <? 192)%N then String c (substring_to u 0 rest)
              else if (b <? 224)%N then String c (substring_to u 1 rest)
              else if (b <? 240)%N then String c (substring_to u 2 rest)
              else
                match u with
                | S u' => String c (substring_to u' 3 rest)
                | O => high_surrogate c rest
                end
          end
      end
  end.

(** [s.split(separator)] for a separator that is not empty: the pieces of [s]
    between the occurrences of the separator, found from the left, each
    search starting behind the occurrence before. [piece] is what has been
    read of the piece at hand, and [skip] the number of characters that are
    still to pass of a separator that has been found. (A string is a
    sequence of bytes here and of UTF-16 code units in the engine; the
    separators of the app are ASCII, which both encodings cut at the same
    places.) *)
Fixpoint split_from (separator : string) (skip : nat) (piece : string) (s : string)
  : list string :=
  match s with
  | EmptyString => [piece]
  | String c rest =>
      match skip with
      | S n => split_from separator n piece rest
      | O =>
          if String.prefix separator s
          then piece :: split_from separator (String.length separator - 1) EmptyString rest
          else split_from separator 0 (piece +:+ String c EmptyString) rest
      end
  end.

Definition String_split (separator s : string) : list string :=
  split_from separator 0 EmptyString s.

(** [separator] occurs in [s]. *)
Fixpoint occurs (separator s : string) : bool :=
  String.prefix separator s
  || match s with
     | EmptyString => false
     | String _ rest => occurs separator rest
     end.

(** No occurrence of [separator] in [s +:+ behind] starts in [s]. *)
Fixpoint no_match_in (separator s behind : string) : Prop :=
  match s with
  | EmptyString => True
  | String _ rest =>
      String.prefix separator (s +:+ behind) = false
      ∧ no_match_in separator rest behind
  end.

(** The last character of [s] is a space. *)
Fixpoint ends_with_space (s : string) : bool :=
  match s with
  | EmptyString => false
  | String c EmptyString => bool_decide (c = " "%char)
  | String _ rest => ends_with_space rest
  end.


(** ** [src/contexts/Profile.js] *)

Module ProfileContext.

(** [ComparisonItem]: a row as the edit form builds it with
    [row.split(SEPARATOR)]; [image] is [undefined] on a row without
    separator. *)
Record ComparisonItem : Type := {
  name : string;
  image : option string;
}.

(** [ProcessedComparisonItem]: [{ ...item, id, score }]. *)
Record ProcessedComparisonItem : Type := {
  item : ComparisonItem;
  id : string;
  score : Z;
}.

(** [VotingPair]; [winner] is [false] ([None]) or the winner. The fields
    [left] and [right] of the source are [left_side] and [right_side]. *)
Record VotingPair : Type := {
  left_side : ProcessedComparisonItem;
  right_side : ProcessedComparisonItem;
  winner : option string;
}.

#[global] Instance ComparisonItem_eq_dec : EqDecision ComparisonItem.
Proof. solve_decision. Defined.
#[global] Instance ProcessedComparisonItem_eq_dec : EqDecision ProcessedComparisonItem.
Proof. solve_decision. Defined.
#[global] Instance VotingPair_eq_dec : EqDecision VotingPair.
Proof. solve_decision. Defined.

(** The [item.name] of a processed item. *)
Definition name_of (c : ProcessedComparisonItem) : string := name (item c).

(** [createPairs]: [list.reduce] with [pairList.push] on the accumulator. *)
Definition createPairs (it : ProcessedComparisonItem)
    (l : list ProcessedComparisonItem) : list VotingPair :=
  fold_left
    (λ pairList pairItem,
       if decide (name_of it ≠ name_of pairItem)
       then pairList ++ [ {| left_side := it; right_side := pairItem; winner := None |} ]
       else pairList)
    l [].

(** [createPairList]: [list.reduce] with [result.concat]. *)
Definition createPairList (l : list ProcessedComparisonItem) : list VotingPair :=
  fold_left (λ result it, result ++ createPairs it l) l [].

(** The default [Array.prototype.sort] compares the elements as strings.
    Every element here is an object, converted to ["[object Object]"], so the
    comparison reports a tie for each two elements and the stable sort returns
    the array in the order it had. *)
Definition Array_sort (l : list ProcessedComparisonItem) : list ProcessedComparisonItem := l.

(** [uniqueByName]. *)
Definition uniqueByName (l : list ComparisonItem) : list ProcessedComparisonItem :=
  Array_sort
    (Object_values
       (fold_left
          (λ nameMap it,
             assign_ordered (name it) {| item := it; id := name it; score := 0 |} nameMap)
          l [])).

(** [ProfileItem]: [{ ...action.data, list, dateTime, pairs, voted }]. The
    field [list] of the source is [list_]. *)
Record ProfileItem : Type := {
  profile_name : string;
  list_ : list ProcessedComparisonItem;
  dateTime : Z;
  pairs : list VotingPair;
  voted : list VotingPair;
}.

Record ProfileState : Type := {
  currentProfile : option string;
  profiles : gmap string ProfileItem;
}.

Definition initialState : ProfileState :=
  {| currentProfile := None; profiles := ∅ |}.

(** The actions, by their [type]; [OTHER] is any other type. *)
Inductive Action : Type :=
| PROFILE_ADD (name : string) (l : list ComparisonItem)
| PROFILE_SET_CURRENT (id : string)
| OTHER (type : string).

(** What a call of the reducer reads from its environment: the clock, and for
    the k-th call of [generateNewKey] the clock reading as text and the two
    characters taken from [Math.random().toString(36)]. *)
Record Env : Type := {
  now : Z;
  stamp : nat → string;
  random36 : nat → string;
}.

(** [generateNewKey], at its k-th call. *)
Definition generateNewKey (env : Env) (k : nat) (name : string) : string :=
  (substring_to 10 0 name +:+ "_") +:+ (stamp env k +:+ "_") +:+ random36 env k.

(** The loop that guards uniqueness: [safetyCheck--] allows 100 new keys,
    then the loop breaks with the key it has. [k] counts the keys generated. *)
Fixpoint uniqueKey (env : Env) (profiles : gmap string ProfileItem) (name : string)
    (safetyCheck : nat) (k : nat) (newProfileId : string) : string :=
  if truthy_at profiles newProfileId then
    match safetyCheck with
    | S n => uniqueKey env profiles name n (S k) (generateNewKey env (S k) name)
    | O => newProfileId
    end
  else newProfileId.

(** [reducer]. [PROFILE_ADD] writes the new profile into [state.profiles]
    itself and returns a copy of it. *)
Definition reducer (env : Env) (state : ProfileState) (action : Action)
  : result ProfileState :=
  match action with
  | PROFILE_ADD name l =>
      let uniqList := uniqueByName l in
      let newProfileId :=
        uniqueKey env (profiles state) name 100 0 (generateNewKey env 0 name) in
      Return {|
        currentProfile := Some newProfileId;
        profiles :=
          assign newProfileId
            {| profile_name := name;
               list_ := uniqList;
               dateTime := now env;
               pairs := createPairList uniqList;
               voted := [] |}
            (profiles state)
      |}
  | PROFILE_SET_CURRENT id =>
      if truthy_at (profiles state) id
      then Return {| currentProfile := Some id; profiles := profiles state |}
      else Throw (InvalidProfile id)
  | OTHER _ => Return state
  end.

(** *** Notions used to state the properties of the pair generator *)

(** A pair with [x] on the left and [y] on the right, by candidate id. *)
Definition ordered_pair (x y : string) (p : VotingPair) : Prop :=
  id (left_side p) = x ∧ id (right_side p) = y.

(** A pair of [x] and [y], whichever side each is on. *)
Definition unordered_pair (x y : string) (p : VotingPair) : Prop :=
  ordered_pair x y p ∨ ordered_pair y x p.

#[global] Instance ordered_pair_dec x y p : Decision (ordered_pair x y p).
Proof. unfold ordered_pair. apply _. Defined.
#[global] Instance unordered_pair_dec x y p : Decision (unordered_pair x y p).
Proof. unfold unordered_pair. apply _. Defined.

(** A candidate as [uniqueByName] makes it: its id is its name. *)
Definition normalised (c : ProcessedComparisonItem) : Prop :=
  id c = name_of c.

Definition make_pair (a b : ProcessedComparisonItem) : VotingPair :=
  {| left_side := a; right_side := b; winner := None |}.

(** The step of the [reduce] in [uniqueByName], and what it maintains. *)
Definition uniqueByName_step (nameMap : list (string * ProcessedComparisonItem))
    (it : ComparisonItem) : list (string * ProcessedComparisonItem) :=
  assign_ordered (name it) {| item := it; id := name it; score := 0 |} nameMap.

Definition keyed_by_name (nameMap : list (string * ProcessedComparisonItem)) : Prop :=
  NoDup nameMap.*1
  ∧ Forall (λ kv, id kv.2 = kv.1 ∧ name_of kv.2 = kv.1 ∧ score kv.2 = 0%Z) nameMap.

(** The invariant of the root state: a current profile that is not [null]
    is a key of [profiles]. *)
Definition current_is_profile (state : ProfileState) : Prop :=
  match currentProfile state with
  | None => True
  | Some k => is_Some (profiles state !! k)
  end.

(** *** The selectors *)

(** The object [{ ...state.profiles[state.currentProfile], id }] of
    [getCurrentProfile]: the fields of the profile when the current key is an
    own property of [profiles] (anything else that the read can give has no
    own enumerable property), and the id. *)
Record CurrentProfile : Type := {
  profile : option ProfileItem;
  profile_id : option string;
}.

Definition getCurrentProfile (state : ProfileState) : CurrentProfile :=
  {| profile := profiles state !! property_key (currentProfile state);
     profile_id := currentProfile state |}.

(** [getTotalComparisons] and [getProgress]: [createSelector] applies the
    result function to what [getCurrentProfile] returns; reading [length] of
    the missing [pairs] or [voted] throws. *)
Definition getTotalComparisons (state : ProfileState) : result nat :=
  match profile (getCurrentProfile state) with
  | Some p => Return (length (pairs p) + length (voted p))
  | None => Throw TypeError
  end.

Definition getProgress (state : ProfileState) : result nat :=
  match profile (getCurrentProfile state) with
  | Some p => Return (length (voted p))
  | None => Throw TypeError
  end.

(** *** Notions used to state the properties of the store *)

(** The key that the k-th call of [generateNewKey] returns for [name]. *)
Definition key_at (env : Env) (name : string) (k : nat) : string :=
  generateNewKey env k name.

(** The profile that [PROFILE_ADD] writes. *)
Definition new_profile (env : Env) (name : string) (l : list ComparisonItem)
  : ProfileItem :=
  {| profile_name := name;
     list_ := uniqueByName l;
     dateTime := now env;
     pairs := createPairList (uniqueByName l);
     voted := [] |}.

(** The names of a list, each at its first place only. *)
Fixpoint first_occurrences (seen : list string) (names : list string) : list string :=
  match names with
  | [] => []
  | n :: rest =>
      (if decide (n ∈ seen) then [] else [n])
      ++ first_occurrences (seen ++ [n]) rest
  end.

(** The names that become own properties of the [nameMap]. *)
Definition own_names (l : list ComparisonItem) : list string :=
  filter (λ n, n ≠ "__proto__"%string) (name <$> l).

(** *** The provider *)

(** [React.useReducer(reducer, initialState)] in [ProfileProvider]: the state
    after the dispatched actions, each reduced once on the state that the
    action before it returned, with the environment of its own call. An
    error that the reducer throws ends the run. *)
Definition useReducer (steps : list (Env * Action)) : result ProfileState :=
  foldl (λ acc step, state ← acc; reducer step.1 state step.2)
    (Return initialState) steps.

(** A profile as [PROFILE_ADD] makes it from some list. *)
Definition as_created (p : ProfileItem) : Prop :=
  (∃ l, list_ p = uniqueByName l)
  ∧ pairs p = createPairList (list_ p)
  ∧ voted p = [].

(** *** An example: the rows A, B and A again *)

Definition example_rows : list ComparisonItem :=
  [ {| name := "A"; image := Some "a1.png"%string |};
    {| name := "B"; image := None |};
    {| name := "A"; image := Some "a2.png"%string |} ].

(** An environment whose second key differs from the first, and one that
    gives the same key at every call. *)
Definition example_env : Env :=
  {| now := 1;
     stamp := λ _, "1700000000000"%string;
     random36 := λ k, match k with 0 => "k7"%string | _ => "q2"%string end |}.

Definition stuck_env : Env :=
  {| now := 2;
     stamp := λ _, "1700000000000"%string;
     random36 := λ _, "k7"%string |}.

(** A state with the profile that the first key names. *)
Definition saved_state : ProfileState :=
  {| currentProfile := None;
     profiles :=
       {[ "letters_1700000000000_k7"%string
          := new_profile example_env "letters" example_rows ]} |}.

End ProfileContext.

(** ** The reducers of the profile store *)

Module Reducers.

(** A pair object is shared by every array that holds it: [PAIR_SKIP] writes
    into the object, so the arrays hold references and the objects live in a
    store. *)
Definition ref : Type := nat.

(** Modelled from the spec: the [VotingPair] typedef of [./ProfileStructure]
    is not part of the sources. The reducers read [id] and write [skipped];
    [leftId] and [rightId] are the two sides of the data model. *)
Record VotingPair : Type := {
  id : string;
  leftId : string;
  rightId : string;
  skipped : Z;
}.

(** Modelled from the spec: the [ComparisonCandidate] typedef of
    [./ProfileStructure] is not part of the sources. The reducers read and
    write [score]; a property that an object lacks is [None], as in the
    object [{ score: NaN }] that a vote for an unknown id creates. *)
Record ComparisonCandidate : Type := {
  cand_id : option string;
  cand_name : option string;
  image : option string;
  score : number;
}.

(** [ProfileItem], with the fields the reducers write. The field [list] of
    the source is [list_]. *)
Record ProfileItem : Type := {
  name : string;
  list_ : gmap string ComparisonCandidate;
  dateTime : Z;
  pairs : list ref;
  totalComparisons : Z;
}.

Record ProfileState : Type := {
  currentProfile : option string;
  profiles : gmap string ProfileItem;
}.

#[global] Instance VotingPair_eq_dec : EqDecision VotingPair.
Proof. solve_decision. Defined.
#[global] Instance ComparisonCandidate_eq_dec : EqDecision ComparisonCandidate.
Proof. solve_decision. Defined.
#[global] Instance ProfileItem_eq_dec : EqDecision ProfileItem.
Proof. solve_decision. Defined.
#[global] Instance ProfileState_eq_dec : EqDecision ProfileState.
Proof. solve_decision. Defined.

(** The store of pair objects. *)
Definition Heap : Type := ref → VotingPair.

(** The actions of [./actions] (not part of the sources), by their [type],
    with the fields of [data] that the reducers read; [OTHER] is any other
    type. *)
Inductive Action : Type :=
| PROFILE_SET_CURRENT (id : string)
| PROFILE_ADD (newProfileId : string) (name : string)
    (nameMap : gmap string ComparisonCandidate) (pairList : list ref)
| LIST_RESET_ROWS (nameMap : gmap string ComparisonCandidate) (pairList : list ref)
| PAIR_SKIP (pairIndex : Z)
| PAIR_VOTE (pairIndex : Z) (winnerListId : string)
| OTHER (type : string).

(** [pair.skipped++] on the object [r]: the counter becomes the double
    nearest to one more. *)
Definition skip_pair (h : Heap) (r : ref) : Heap :=
  λ r', if decide (r' = r)
        then {| id := id (h r); leftId := leftId (h r); rightId := rightId (h r);
                skipped := double_of (skipped (h r) + 1) |}
        else h r'.

(** [pairReducer]. [PAIR_VOTE] splices a copy of the array; [PAIR_SKIP]
    copies the array and increments [skipped] in the pair object itself,
    which throws when there is no object at [pairIndex]. *)
Definition pairReducer (h : Heap) (state : list ref) (action : Action) (pairIndex : Z)
  : result (Heap * list ref) :=
  match action with
  | PAIR_VOTE _ _ => Return (h, Array_splice1 pairIndex state)
  | PAIR_SKIP _ =>
      match Array_get state pairIndex with
      | Some r => Return (skip_pair h r, state)
      | None => Throw TypeError
      end
  | _ => Return (h, state)
  end.

(** [{ ...state[listId] }] followed by [score++] on the copy. Whatever
    [state[listId]] is when it is no own property ([undefined], or a value
    inherited from the prototype), it has no own enumerable property and the
    copy is [{}]. *)
Definition voteListRow_entry (row : option ComparisonCandidate) : ComparisonCandidate :=
  match row with
  | Some c =>
      {| cand_id := cand_id c; cand_name := cand_name c; image := image c;
         score := increment (Some (score c)) |}
  | None =>
      {| cand_id := None; cand_name := None; image := None;
         score := increment None |}
  end.

(** [listReducer]. *)
Definition listReducer (state : gmap string ComparisonCandidate) (action : Action)
    (listId : string) : gmap string ComparisonCandidate :=
  match action with
  | PAIR_VOTE _ _ =>
      let voteListRow := assign listId (voteListRow_entry (state !! listId)) ∅ in
      spread2 state voteListRow
  | _ => state
  end.

(** The pairs of [LIST_RESET_ROWS]: of [resetPairs], those that stand at the
    first index of their [id]. *)
Definition dedupe_pairs (h : Heap) (resetPairs : list ref) : list ref :=
  Array_filter
    (λ pair index,
       (Array_findIndex (λ pairCheck, String.eqb (id (h pairCheck)) (id (h pair))) resetPairs
        =? index)%Z)
    resetPairs.

(** [profileReducer]. Where [state[currentProfile]] is no own property it is
    [undefined] or a value of the prototype without [pairs] and [list]:
    spreading [undefined] into the array, and reading a property of
    [undefined], throw. *)
Definition profileReducer (now : Z) (h : Heap) (state : gmap string ProfileItem)
    (action : Action) (currentProfile : string)
  : result (Heap * gmap string ProfileItem) :=
  match action with
  | PROFILE_ADD _ name nameMap pairList =>
      let newProfile :=
        assign currentProfile
          {| name := name;
             list_ := nameMap;
             dateTime := now;
             pairs := pairList;
             totalComparisons := Z.of_nat (length pairList) |} ∅ in
      Return (h, spread2 state newProfile)
  | PAIR_SKIP pairIndex =>
      match state !! currentProfile with
      | Some p =>
          '(h', pairs') ← pairReducer h (pairs p) action pairIndex;
          let skipProfile :=
            assign currentProfile
              {| name := name p;
                 list_ := list_ p;
                 dateTime := now;
                 pairs := pairs';
                 totalComparisons := totalComparisons p |} ∅ in
          Return (h', spread2 state skipProfile)
      | None => Throw TypeError
      end
  | PAIR_VOTE pairIndex winnerListId =>
      match state !! currentProfile with
      | Some p =>
          let list' := listReducer (list_ p) action winnerListId in
          '(h', pairs') ← pairReducer h (pairs p) action pairIndex;
          let voteProfile :=
            assign currentProfile
              {| name := name p;
                 list_ := list';
                 dateTime := now;
                 pairs := pairs';
                 totalComparisons := totalComparisons p |} ∅ in
          Return (h', spread2 state voteProfile)
      | None => Throw TypeError
      end
  | LIST_RESET_ROWS nameMap pairList =>
      match state !! currentProfile with
      | Some p =>
          let resetPairs := pairs p ++ pairList in
          let resetRowsProfile :=
            assign currentProfile
              {| name := name p;
                 list_ := spread2 (list_ p) nameMap;
                 dateTime := now;
                 pairs := dedupe_pairs h resetPairs;
                 totalComparisons := totalComparisons p |} ∅ in
          Return (h, spread2 state resetRowsProfile)
      | None => Throw TypeError
      end
  | _ => Return (h, state)
  end.

(** [reducer]. *)
Definition reducer (now : Z) (h : Heap) (state : ProfileState) (action : Action)
  : result (Heap * ProfileState) :=
  match action with
  | PROFILE_SET_CURRENT currentProfileId =>
      if truthy_at (profiles state) currentProfileId
      then Return (h, {| currentProfile := Some currentProfileId;
                         profiles := profiles state |})
      else Throw (InvalidProfile currentProfileId)
  | PROFILE_ADD newProfileId _ _ _ =>
      '(h', profiles') ← profileReducer now h (profiles state) action newProfileId;
      Return (h', {| currentProfile := Some newProfileId; profiles := profiles' |})
  | LIST_RESET_ROWS _ _ | PAIR_SKIP _ | PAIR_VOTE _ _ =>
      if truthy_at (profiles state) (property_key (currentProfile state))
      then
        '(h', profiles') ← profileReducer now h (profiles state) action
                             (property_key (currentProfile state));
        Return (h', {| currentProfile := currentProfile state; profiles := profiles' |})
      else Throw NoProfileSelected
  | OTHER _ => Return (h, state)
  end.

(** *** Notions used to state the properties of the reducers *)

(** The derived progress of a profile. *)
Definition progress (p : ProfileItem) : Z :=
  totalComparisons p - Z.of_nat (length (pairs p)).

(** The invariant of the root state: a current profile that is not [null]
    is a key of [profiles]. *)
Definition current_is_profile (state : ProfileState) : Prop :=
  match currentProfile state with
  | None => True
  | Some k => is_Some (profiles state !! k)
  end.

(** A state whose objects are made by [{}], property writes and spreads
    (see [plain_map]). *)
Definition plain_state (state : ProfileState) : Prop :=
  plain_map (profiles state)
  ∧ ∀ k p, profiles state !! k = Some p → plain_map (list_ p).

(** The data of an action is plain when its candidate mapping is. *)
Definition plain_action (action : Action) : Prop :=
  match action with
  | PROFILE_ADD _ _ nameMap _ | LIST_RESET_ROWS nameMap _ => plain_map nameMap
  | _ => True
  end.

(** The sum of two numbers that are integers, as an integer, and the sum of
    the scores of a candidate mapping: the sums of the integers themselves,
    not rounded, and [NaN] when a score is [NaN]. *)
Definition add_number (a b : number) : number :=
  match a, b with
  | Num x, Num y => Num (x + y)
  | _, _ => NaN
  end.

Definition total_score (m : gmap string ComparisonCandidate) : number :=
  map_fold (λ _ c acc, add_number acc (score c)) (Num 0) m.

(** Scores that count votes: each is an integer and not negative. *)
Definition counting_scores (m : gmap string ComparisonCandidate) : Prop :=
  ∀ k c, m !! k = Some c → ∃ z, score c = Num z ∧ (0 ≤ z)%Z.

(** A vote as the voting engine means it: [pairIndex] indexes a pending
    pair [r] of the current profile, and the winner is one of the two sides
    of that pair and a key of the candidate mapping. *)
Definition valid_vote (h : Heap) (state : ProfileState) (pairIndex : Z)
    (winner : string) : Prop :=
  ∃ cp p r c,
    currentProfile state = Some cp
    ∧ profiles state !! cp = Some p
    ∧ (0 ≤ pairIndex)%Z
    ∧ pairs p !! Z.to_nat pairIndex = Some r
    ∧ (winner = leftId (h r) ∨ winner = rightId (h r))
    ∧ list_ p !! winner = Some c.

(** [votes h s k s']: [k] valid votes lead from [s] to [s']. *)
Inductive votes (h : Heap) : ProfileState → nat → ProfileState → Prop :=
| votes_none s : votes h s 0 s
| votes_more s k s1 now pairIndex winner s2 :
    votes h s k s1 →
    valid_vote h s1 pairIndex winner →
    reducer now h s1 (PAIR_VOTE pairIndex winner) = Return (h, s2) →
    votes h s (S k) s2.

(** The ids of the pair objects of an array. *)
Definition pair_ids (h : Heap) (l : list ref) : list string :=
  (λ r, id (h r)) <$> l.

(** Of an array of pairs, those whose [id] no earlier pair and no id in
    [seen] has. *)
Fixpoint keep_first_ids (h : Heap) (seen : list string) (l : list ref) : list ref :=
  match l with
  | [] => []
  | r :: rest =>
      (if decide (id (h r) ∈ seen) then [] else [r])
      ++ keep_first_ids h (seen ++ [id (h r)]) rest
  end.

(** A record with another score. *)
Definition scored (c : ComparisonCandidate) (n : number) : ComparisonCandidate :=
  {| cand_id := cand_id c; cand_name := cand_name c; image := image c; score := n |}.

(** Actions dispatched one after the other, each on the state the one before
    returned; [now] is the clock reading of every action. *)
Definition dispatch (now : Z) (start : result (Heap * ProfileState))
    (actions : list Action) : result (Heap * ProfileState) :=
  foldl (λ acc action, '(h, state) ← acc; reducer now h state action) start actions.

(** The current profile of an outcome, when there is one. *)
Definition current_profile (outcome : result (Heap * ProfileState)) : option ProfileItem :=
  match outcome with
  | Return (_, state) => profiles state !! property_key (currentProfile state)
  | Throw _ => None
  end.

(** The score of candidate [k] in the current profile of an outcome. *)
Definition current_score (outcome : result (Heap * ProfileState)) (k : string)
  : option number :=
  p ← current_profile outcome; c ← list_ p !! k; Some (score c).

(** Actions dispatched one after the other, each with the clock reading of
    its own call. *)
Definition dispatch_at (start : result (Heap * ProfileState))
    (actions : list (Z * Action)) : result (Heap * ProfileState) :=
  foldl (λ acc step, '(h, state) ← acc; reducer step.1 h state step.2) start actions.

(** An action that names no member of [Object.prototype] as a profile. *)
Definition names_own_keys (action : Action) : Prop :=
  match action with
  | PROFILE_SET_CURRENT id => inherited id = false
  | PROFILE_ADD newProfileId _ _ _ => newProfileId ≠ "__proto__"%string
  | _ => True
  end.

(** The ids of the pending pairs of every profile are distinct. *)
Definition pending_ids_distinct (h : Heap) (state : ProfileState) : Prop :=
  ∀ k p, profiles state !! k = Some p → NoDup (pair_ids h (pairs p)).

(** *** The running example: candidates A, B and C *)

Definition candidate (n : string) : ComparisonCandidate :=
  {| cand_id := Some n; cand_name := Some n; image := None; score := Num 0 |}.

Definition pair_of (a b : string) : VotingPair :=
  {| id := a +:+ "|" +:+ b; leftId := a; rightId := b; skipped := 0 |}.

(** The pair objects AB, AC, BC and, for a later merge, AD. *)
Definition example_heap : Heap :=
  λ r, match r with
       | 0 => pair_of "A" "B"
       | 1 => pair_of "A" "C"
       | 2 => pair_of "B" "C"
       | _ => pair_of "A" "D"
       end.

Definition example_nameMap : gmap string ComparisonCandidate :=
  <["A" := candidate "A"]> (<["B" := candidate "B"]> (<["C" := candidate "C"]> ∅)).

Definition example_merge : gmap string ComparisonCandidate :=
  <["A" := candidate "A"]> (<["D" := candidate "D"]> ∅).

Definition empty_state : ProfileState :=
  {| currentProfile := None; profiles := ∅ |}.

(** The profile "p1" as [PROFILE_ADD] creates it. *)
Definition example_profile : ProfileItem :=
  {| name := "letters"; list_ := example_nameMap; dateTime := 1;
     pairs := [0; 1; 2]; totalComparisons := 3 |}.

Definition example_state : ProfileState :=
  {| currentProfile := Some "p1"%string;
     profiles := {[ "p1"%string := example_profile ]} |}.

(** The same profile after the vote A over B. *)
Definition first_vote_profile : ProfileItem :=
  {| name := "letters";
     list_ := <["A" := scored (candidate "A") (Num 1)]> example_nameMap;
     dateTime := 1; pairs := [1; 2]; totalComparisons := 3 |}.

Definition first_vote_state : ProfileState :=
  {| currentProfile := Some "p1"%string;
     profiles := {[ "p1"%string := first_vote_profile ]} |}.

(** The same profile after the votes A over B, A over C and C over B. *)
Definition voted_profile : ProfileItem :=
  {| name := "letters";
     list_ := <["A" := scored (candidate "A") (Num 2)]>
                (<["C" := scored (candidate "C") (Num 1)]> example_nameMap);
     dateTime := 1; pairs := []; totalComparisons := 3 |}.

Definition voted_state : ProfileState :=
  {| currentProfile := Some "p1"%string;
     profiles := {[ "p1"%string := voted_profile ]} |}.

(** The profile after the three votes and a reset of rows with the
    candidates A and D and the pair AD. *)
Definition merged_profile : ProfileItem :=
  {| name := "letters";
     list_ := spread2 (list_ voted_profile) example_merge;
     dateTime := 1; pairs := [3]; totalComparisons := 3 |}.

Definition merged_state : ProfileState :=
  {| currentProfile := Some "p1"%string;
     profiles := {[ "p1"%string := merged_profile ]} |}.

(** The example profile after a vote for the unknown candidate D and a reset
    of rows that brings the pair AD: D has the score [NaN]. *)
Definition unknown_profile : ProfileItem :=
  {| name := "letters";
     list_ := <["D" := {| cand_id := None; cand_name := None; image := None;
                          score := NaN |}]> example_nameMap;
     dateTime := 1; pairs := [0; 1; 2; 3]; totalComparisons := 3 |}.

Definition unknown_state : ProfileState :=
  {| currentProfile := Some "p1"%string;
     profiles := {[ "p1"%string := unknown_profile ]} |}.

(** The example profile with the score 2^53 for A, and pair objects whose
    counters are 2^53. *)
Definition full_profile : ProfileItem :=
  {| name := "letters";
     list_ := <["A" := scored (candidate "A") (Num (2 ^ 53))]> example_nameMap;
     dateTime := 1; pairs := [0; 1; 2]; totalComparisons := 3 |}.

Definition full_state : ProfileState :=
  {| currentProfile := Some "p1"%string;
     profiles := {[ "p1"%string := full_profile ]} |}.

Definition full_heap : Heap :=
  λ r, {| id := id (example_heap r); leftId := leftId (example_heap r);
          rightId := rightId (example_heap r); skipped := 2 ^ 53 |}.

End Reducers.

(** ** The edit form *)

Module EditProfile.
Import ProfileContext.

(** [SEPARATOR]: 4 spaces. *)
Definition SEPARATOR : string := "    ".

(** The line feed of ['\n']. *)
Definition line_feed : string := String "010"%char EmptyString.

(** [const [name, image] = row.split(SEPARATOR); return { name, image }]:
    [image] is [undefined] when the row has no separator, and the pieces
    behind the second are dropped. A split returns at least one piece. *)
Definition parse_row (row : string) : ComparisonItem :=
  match String_split SEPARATOR row with
  | [] => {| name := EmptyString; image := None |}
  | [name] => {| name := name; image := None |}
  | name :: image :: _ => {| name := name; image := Some image |}
  end.

(** [name || image] as a condition: the empty string and [undefined] are
    falsy. *)
Definition named_or_pictured (it : ComparisonItem) : bool :=
  negb (bool_decide (name it = EmptyString))
  || match image it with
     | Some i => negb (bool_decide (i = EmptyString))
     | None => false
     end.

(** The list that the save button makes of [listText]. *)
Definition parse_list (listText : string) : list ComparisonItem :=
  filter (λ it, named_or_pictured it = true)
    (parse_row <$> String_split line_feed listText).

(** *** Notions used to state the properties of the edit form *)

(** A candidate written as a row, in the format that the placeholder of the
    text area describes: the name, and behind 4 spaces the image if there is
    one. *)
Definition write_row (it : ComparisonItem) : string :=
  match image it with
  | Some i => name it +:+ SEPARATOR +:+ i
  | None => name it
  end.

Definition write_list (l : list ComparisonItem) : string :=
  String.concat line_feed (write_row <$> l).

(** A candidate that can be written as a row: neither its name nor its image
    has a line feed or the separator in it, and the name does not end with a
    space when an image follows. *)
Definition writable (it : ComparisonItem) : Prop :=
  occurs line_feed (name it) = false
  ∧ occurs SEPARATOR (name it) = false
  ∧ match image it with
    | Some i =>
        ends_with_space (name it) = false
        ∧ occurs line_feed i = false
        ∧ occurs SEPARATOR i = false
    | None => True
    end.

(** [row] read as the candidate [it]. Without an image, the row is the name
    and has no separator in it. With an image, the row is the name, the
    separator, the image and what is dropped behind it, where no occurrence
    of the separator starts in the name, so that the separator behind the
    name is the first of the row, and none starts in the image: what is
    dropped is empty, or it starts with the next separator that the row has
    behind the first. *)
Definition reads_as (row : string) (it : ComparisonItem) : Prop :=
  match image it with
  | None => row = name it ∧ occurs SEPARATOR row = false
  | Some i =>
      ∃ dropped,
        row = name it +:+ SEPARATOR +:+ i +:+ dropped
        ∧ no_match_in SEPARATOR (name it) (SEPARATOR +:+ i +:+ dropped)
        ∧ no_match_in SEPARATOR i dropped
        ∧ (dropped = EmptyString ∨ String.prefix SEPARATOR dropped = true)
  end.

(** *** An example: two rows, the first with an image *)

Definition example_items : list ComparisonItem :=
  [ {| name := "Item 1"; image := Some "https://example.org/1.png"%string |};
    {| name := "Item 2"; image := None |} ].

End EditProfile.


(** * Properties *)

(** ** Facts about numbers *)

(** The integers from -2^53 to 2^53 are doubles. *)
Lemma double_of_exact z : (- 2 ^ 53 ≤ z ≤ 2 ^ 53)%Z → double_of z = z.
Proof.
  intros Hz. unfold double_of.
  destruct (Z.log2 (Z.abs z) <? 53)%Z eqn:Hlog; [done |].
  apply Z.ltb_ge in Hlog.
  assert (2 ^ 53 ≤ Z.abs z)%Z as Habs.
  { destruct (decide (Z.abs z = 0%Z)) as [Hz0|Hz0]; [by rewrite Hz0 in Hlog |].
    apply Z.log2_le_pow2; lia. }
  assert (z = 2 ^ 53 ∨ z = - 2 ^ 53)%Z as [-> | ->] by lia; by vm_compute.
Qed.

(** So [x++] adds exactly 1 from -2^53 up to 2^53 - 1; at 2^53 it adds
    nothing, and at 2^53 + 2 it adds 2. *)
Lemma increment_exact z :
  (- 2 ^ 53 ≤ z < 2 ^ 53)%Z → increment (Some (Num z)) = Num (z + 1).
Proof. intros Hz. cbn [increment]. rewrite double_of_exact; [done | lia]. Qed.

Lemma increment_rounds :
  increment (Some (Num (2 ^ 53))) = Num (2 ^ 53)
  ∧ increment (Some (Num (2 ^ 53 + 2))) = Num (2 ^ 53 + 4).
Proof. split; by vm_compute. Qed.

(** ** Facts about code units *)

(** Of characters of one byte, [substring_to] takes as many as it is asked
    for. *)
Lemma substring_to_ascii units s :
  Forall (λ c, (N_of_ascii c < 128)%N) (list_ascii_of_string s) →
  substring_to units 0 s = substring 0 units s.
Proof.
  revert units. induction s as [|c s IH]; intros units Hs; [by destruct units |].
  cbn [list_ascii_of_string] in Hs. apply Forall_cons in Hs as [Hc Hs].
  destruct units as [|u]; [done |]. cbn [substring_to substring].
  destruct (N.ltb_spec (N_of_ascii c) 192); [| lia]. by rewrite IH.
Qed.

(** Characters of two bytes count once and a character of four bytes counts
    twice; a cut in the middle of it leaves the first surrogate. *)
Lemma substring_to_characters :
  substring_to 10 0 "ééééééééééé" = "éééééééééé"%string
  ∧ substring_to 3 0 "a😀b" = "a😀"%string
  ∧ substring_to 2 0 "a😀b" = String "a" (String "237" (String "160" (String "189" ""))).
Proof. split_and!; by vm_compute. Qed.

(** ** Facts about plain objects *)

Section plain_objects.
Context {V : Type}.
Implicit Types (m : gmap string V) (k : string) (v : V).

Lemma truthy_at_own m k v : m !! k = Some v → truthy_at m k = true.
Proof. intros H. unfold truthy_at. rewrite bool_decide_eq_true_2; [done | eauto]. Qed.

Lemma truthy_at_false m k :
  truthy_at m k = false ↔ m !! k = None ∧ inherited k = false.
Proof.
  unfold truthy_at. rewrite orb_false_iff, bool_decide_eq_false.
  rewrite <- eq_None_not_Some. done.
Qed.

(** [{ ...m, ...o }] where [o] is [{}] after [o[k] = v]. *)
Lemma assign_empty k v :
  assign k v (∅ : gmap string V)
  = if decide (k = "__proto__"%string) then ∅ else {[ k := v ]}.
Proof.
  unfold assign. rewrite lookup_empty.
  rewrite (bool_decide_eq_true_2 (None = None)) by done.
  rewrite andb_true_r. case_decide as H.
  - by rewrite bool_decide_eq_true_2.
  - rewrite bool_decide_eq_false_2 by done. done.
Qed.

Lemma spread_assign_lookup_eq m k v :
  k ≠ "__proto__"%string → spread2 m (assign k v ∅) !! k = Some v.
Proof.
  intros H. rewrite assign_empty, decide_False by done.
  unfold spread2. apply lookup_union_Some_l, lookup_singleton_eq.
Qed.

Lemma spread_assign_lookup_ne m k v j :
  j ≠ k → spread2 m (assign k v ∅) !! j = m !! j.
Proof.
  intros H. rewrite assign_empty. unfold spread2. case_decide.
  - by rewrite (left_id_L ∅ (∪)).
  - rewrite lookup_union_r; [done |]. by apply lookup_singleton_ne.
Qed.

Lemma spread_assign_proto m v :
  spread2 m (assign "__proto__" v ∅) = m.
Proof.
  rewrite assign_empty, decide_True by done.
  unfold spread2. by rewrite (left_id_L ∅ (∪)).
Qed.

(** The own property [k] after the write: the value written, or the value
    that was there when [k] is ["__proto__"]. *)
Lemma spread_assign_lookup_own m k v0 v :
  m !! k = Some v0 →
  spread2 m (assign k v ∅) !! k
  = Some (if decide (k = "__proto__"%string) then v0 else v).
Proof.
  intros Hk. case_decide as H.
  - subst k. by rewrite spread_assign_proto.
  - by apply spread_assign_lookup_eq.
Qed.

Lemma spread_assign_insert m k v :
  k ≠ "__proto__"%string → spread2 m (assign k v ∅) = <[k:=v]> m.
Proof.
  intros H. rewrite assign_empty, decide_False by done.
  unfold spread2. by rewrite insert_union_singleton_l.
Qed.

Lemma spread_assign_lookup_Some m k v j x :
  spread2 m (assign k v ∅) !! j = Some x → x = v ∨ m !! j = Some x.
Proof.
  destruct (decide (j = k)) as [->|Hne].
  - destruct (decide (k = "__proto__"%string)) as [->|Hk].
    + rewrite spread_assign_proto. by right.
    + rewrite spread_assign_lookup_eq by done. intros [= <-]. by left.
  - rewrite spread_assign_lookup_ne by done. by right.
Qed.

Lemma spread_assign_lookup_cases m k v j x :
  spread2 m (assign k v ∅) !! j = Some x → (j = k ∧ x = v) ∨ m !! j = Some x.
Proof.
  destruct (decide (j = k)) as [->|Hne].
  - destruct (decide (k = "__proto__"%string)) as [->|Hk].
    + rewrite spread_assign_proto. by right.
    + rewrite spread_assign_lookup_eq by done. intros [= <-]. by left.
  - rewrite spread_assign_lookup_ne by done. by right.
Qed.

Lemma spread_assign_is_Some m k v j :
  is_Some (m !! j) → is_Some (spread2 m (assign k v ∅) !! j).
Proof.
  intros [x Hx]. destruct (decide (j = k)) as [->|Hne].
  - rewrite (spread_assign_lookup_own _ _ x) by done. eauto.
  - rewrite spread_assign_lookup_ne by done. eauto.
Qed.

Lemma spread2_plain (a b : gmap string V) :
  plain_map a → plain_map b → plain_map (spread2 a b).
Proof. unfold plain_map, spread2. intros Ha Hb. by apply lookup_union_None. Qed.

Lemma spread_assign_plain m k v :
  plain_map m → plain_map (spread2 m (assign k v ∅)).
Proof.
  unfold plain_map. intros H.
  destruct (decide (k = "__proto__"%string)) as [->|Hne].
  - by rewrite spread_assign_proto.
  - by rewrite spread_assign_lookup_ne.
Qed.

End plain_objects.

(** ** Facts about objects with ordered keys *)

Section ordered_objects.
Context {V : Type}.
Implicit Types (obj : list (string * V)) (k : string) (v : V).

Lemma put_keys k v obj :
  (put k v obj).*1 = if decide (k ∈ obj.*1) then obj.*1 else obj.*1 ++ [k].
Proof.
  induction obj as [|[k' v'] obj IH]; [done |].
  cbn [put]. rewrite !fmap_cons. cbn [fst].
  destruct (decide (k = k')) as [->|Hne].
  - rewrite fmap_cons. cbn [fst].
    rewrite decide_True; [done | left].
  - rewrite fmap_cons, IH. cbn [fst].
    destruct (decide (k ∈ obj.*1)) as [Hin|Hnin].
    + rewrite decide_True; [done | by right].
    + rewrite decide_False; [done |].
      intros [?|?]%elem_of_cons; done.
Qed.

Lemma put_NoDup k v obj : NoDup obj.*1 → NoDup (put k v obj).*1.
Proof.
  intros Hnd. rewrite put_keys. case_decide; [done |].
  apply NoDup_app. split_and!; [done | | apply NoDup_singleton].
  intros x Hx ->%list_elem_of_singleton. done.
Qed.

Lemma put_elem k v obj kv : kv ∈ put k v obj → kv = (k, v) ∨ kv ∈ obj.
Proof.
  induction obj as [|[k' v'] obj IH]; simpl.
  - intros ->%list_elem_of_singleton. by left.
  - destruct (decide (k = k')) as [->|Hne].
    + intros [->|?]%elem_of_cons; [by left | right; by right].
    + intros [->|Hin]%elem_of_cons; [right; left |].
      destruct (IH Hin) as [->|?]; [by left | right; by right].
Qed.

Lemma Object_values_Permutation obj : Object_values obj ≡ₚ obj.*2.
Proof.
  unfold Object_values. rewrite merge_sort_Permutation.
  induction obj as [|[k v] obj IH]; [done |].
  simpl. unfold index_entry at 1. simpl.
  destruct (array_index k) as [n|] eqn:Hk; simpl.
  - rewrite filter_cons_False by (simpl; congruence).
    by rewrite IH.
  - rewrite filter_cons_True by done.
    simpl. rewrite <- Permutation_middle. by rewrite IH.
Qed.

End ordered_objects.

(** ** Facts about array indices and the order of keys *)

Section array_indices.

Lemma digit_Some c d : digit c = Some d → N_of_ascii c = (d + 48)%N ∧ (d < 10)%N.
Proof.
  unfold digit. intros H.
  destruct (48 <=? N_of_ascii c)%N eqn:H1; [| done].
  destruct (N_of_ascii c <=? 57)%N eqn:H2; [| done].
  simpl in H. injection H as <-.
  apply N.leb_le in H1, H2. lia.
Qed.

Lemma digit_inj c c' d : digit c = Some d → digit c' = Some d → c = c'.
Proof.
  intros [H _]%digit_Some [H' _]%digit_Some.
  rewrite <- (ascii_N_embedding c), <- (ascii_N_embedding c'). congruence.
Qed.

Lemma digits_bounds s acc n :
  digits s acc = Some n →
  (acc * 10 ^ N.of_nat (String.length s) ≤ n
   ∧ n < (acc + 1) * 10 ^ N.of_nat (String.length s))%N.
Proof.
  revert acc. induction s as [|c s IH]; intros acc; simpl digits.
  - intros [= ->]. simpl. lia.
  - destruct (digit c) as [d|] eqn:Hd; [| done].
    intros [H1 H2]%IH. apply digit_Some in Hd as [_ Hd].
    cbn [String.length]. rewrite Nat2N.inj_succ, N.pow_succ_r'.
    assert (0 < 10 ^ N.of_nat (String.length s))%N
      by (apply N.neq_0_lt_0, N.pow_nonzero; lia).
    nia.
Qed.

Lemma digits_inj a b acc acc' n :
  String.length a = String.length b →
  digits a acc = Some n → digits b acc' = Some n → acc = acc' ∧ a = b.
Proof.
  revert b acc acc'. induction a as [|c a IH]; intros [|c' b] acc acc'; try done.
  - simpl. intros _ [= ->] [= ->]. done.
  - simpl. intros [= Hlen].
    destruct (digit c) as [d|] eqn:Hd; [| done].
    destruct (digit c') as [d'|] eqn:Hd'; [| done].
    intros Ha Hb. destruct (IH _ _ _ Hlen Ha Hb) as [Hacc ->].
    pose proof (digit_Some _ _ Hd) as [_ ?].
    pose proof (digit_Some _ _ Hd') as [_ ?].
    assert (d = d') as -> by lia.
    split; [lia |]. f_equal. by eapply digit_inj.
Qed.

(** What an array index is as a string: ["0"], or digits that start with
    another digit than 0. *)
Lemma array_index_Some k n :
  array_index k = Some n →
  (k = "0"%string ∧ n = 0%N)
  ∨ (∃ c rest d, k = String c rest ∧ digit c = Some d ∧ (1 ≤ d)%N
                 ∧ digits rest d = Some n).
Proof.
  destruct k as [|c rest]; [done |]. unfold array_index.
  destruct (Ascii.eqb c "0") eqn:Hc.
  - apply Ascii.eqb_eq in Hc as ->.
    destruct (String.eqb rest "") eqn:Hrest; [| done].
    apply String.eqb_eq in Hrest as ->. intros [= <-]. by left.
  - apply Ascii.eqb_neq in Hc.
    simpl digits. destruct (digit c) as [d|] eqn:Hd; [| done].
    destruct (digits rest (10 * 0 + d)) as [m|] eqn:Hm; [| done].
    case_match; [| done]. intros [= <-]. right.
    exists c, rest, d. split_and!; [done | done | | done].
    destruct (decide (d = 0%N)) as [->|]; [| lia].
    destruct Hc. by apply (digit_inj _ _ 0%N).
Qed.

(** Two keys with the same array index are the same key. *)
Lemma array_index_inj a b n :
  array_index a = Some n → array_index b = Some n → a = b.
Proof.
  intros [[-> ->]|(c & rest & d & -> & Hd & Hd1 & Hn)]%array_index_Some
         [[-> Hn']|(c' & rest' & d' & -> & Hd' & Hd1' & Hn')]%array_index_Some.
  - done.
  - apply digits_bounds in Hn'.
    assert (0 < 10 ^ N.of_nat (String.length rest'))%N
      by (apply N.neq_0_lt_0, N.pow_nonzero; lia).
    nia.
  - subst n. apply digits_bounds in Hn.
    assert (0 < 10 ^ N.of_nat (String.length rest))%N
      by (apply N.neq_0_lt_0, N.pow_nonzero; lia).
    nia.
  - assert (String.length rest = String.length rest') as Hlen.
    { pose proof (digits_bounds _ _ _ Hn) as [? ?].
      pose proof (digits_bounds _ _ _ Hn') as [? ?].
      apply digit_Some in Hd as [_ ?], Hd' as [_ ?].
      destruct (Nat.lt_trichotomy (String.length rest) (String.length rest'))
        as [Hlt|[?|Hlt]]; [exfalso | done | exfalso].
      - assert (10 * 10 ^ N.of_nat (String.length rest)
                ≤ 10 ^ N.of_nat (String.length rest'))%N.
        { rewrite <- N.pow_succ_r'. apply N.pow_le_mono_r; lia. }
        nia.
      - assert (10 * 10 ^ N.of_nat (String.length rest')
                ≤ 10 ^ N.of_nat (String.length rest))%N.
        { rewrite <- N.pow_succ_r'. apply N.pow_le_mono_r; lia. }
        nia. }
    destruct (digits_inj _ _ _ _ _ Hlen Hn Hn') as [-> ->].
    f_equal. by eapply digit_inj.
Qed.

End array_indices.

Section key_order.
Context {V : Type}.
Implicit Types obj : list (string * V).

Lemma index_le_trans : Transitive (@index_le V).
Proof. intros a b c. unfold index_le. lia. Qed.

Lemma index_le_total : Total (@index_le V).
Proof. intros a b. unfold index_le. lia. Qed.

#[local] Existing Instance index_le_trans.
#[local] Existing Instance index_le_total.

Lemma index_entry_Some (kv : string * V) e :
  index_entry kv = Some e → array_index kv.1 = Some e.1 ∧ e.2 = kv.2.
Proof.
  unfold index_entry. destruct (array_index kv.1); [| done]. by intros [= <-].
Qed.

Lemma index_entries_elem obj e :
  e ∈ omap index_entry obj → ∃ k, (k, e.2) ∈ obj ∧ array_index k = Some e.1.
Proof.
  intros ([k v] & Hkv & [Hk Hv]%index_entry_Some)%list_elem_of_omap.
  simpl in *. exists k. by rewrite Hv.
Qed.

Lemma index_entries_NoDup obj : NoDup obj.*1 → NoDup (omap index_entry obj).*1.
Proof.
  induction obj as [|[k v] obj IH]; [intros _; apply NoDup_nil_2 |].
  rewrite fmap_cons, NoDup_cons. intros [Hk Hnd]. cbn [omap list_omap].
  destruct (index_entry (k, v)) as [e|] eqn:He; [| by apply IH].
  apply index_entry_Some in He as [He _]. simpl in He.
  rewrite fmap_cons. apply NoDup_cons. split; [| by apply IH].
  intros (e' & Heq & (k' & Hin & Hk')%index_entries_elem)%list_elem_of_fmap.
  rewrite <- Heq in Hk'. rewrite (array_index_inj _ _ _ He Hk') in Hk.
  apply Hk. by apply (list_elem_of_fmap_2 fst) in Hin.
Qed.

Lemma index_entries_keys (key_of : V → string) obj :
  Forall (λ kv, key_of kv.2 = kv.1) obj →
  (key_of ∘ snd) <$> omap index_entry obj
  = filter (λ k, is_Some (array_index k)) obj.*1.
Proof.
  induction 1 as [|[k v] obj Hk _ IH]; [done |]. simpl in Hk.
  cbn [omap list_omap]. rewrite fmap_cons. unfold index_entry at 1. cbn [fst snd].
  destruct (array_index k) as [n|] eqn:Hn; cbn [fmap option_fmap option_map].
  - rewrite filter_cons_True by (by rewrite Hn). rewrite fmap_cons. cbn.
    by rewrite Hk, IH.
  - rewrite filter_cons_False by (rewrite Hn; by intros [? ?]). done.
Qed.

Lemma other_entries_keys (key_of : V → string) obj :
  Forall (λ kv, key_of kv.2 = kv.1) obj →
  (key_of ∘ snd) <$> filter (λ kv, array_index kv.1 = None) obj
  = filter (λ k, array_index k = None) obj.*1.
Proof.
  induction 1 as [|[k v] obj Hk _ IH]; [done |]. simpl in Hk.
  rewrite fmap_cons. cbn [fst].
  destruct (array_index k) as [n|] eqn:Hn.
  - rewrite !filter_cons_False by (cbn; by rewrite Hn). done.
  - rewrite !filter_cons_True by done. rewrite fmap_cons. cbn. by rewrite Hk, IH.
Qed.

Lemma index_entries_sorted (key_of : V → string) (s : list (N * V)) :
  StronglySorted index_le s → NoDup s.*1 →
  Forall (λ e, array_index (key_of e.2) = Some e.1) s →
  StronglySorted index_before ((key_of ∘ snd) <$> s).
Proof.
  induction 1 as [|e s Hs IH Hall]; [constructor |].
  rewrite fmap_cons, NoDup_cons, Forall_cons. intros [He Hnd] [Hke Hk].
  rewrite fmap_cons. constructor; [by apply IH |].
  apply Forall_fmap, Forall_forall. intros e' Hin.
  eapply Forall_forall in Hall, Hk; [| done | done].
  unfold index_before. cbn. rewrite Hke, Hk.
  assert (e.1 ≠ e'.1) by (intros Heq; apply He; rewrite Heq;
                            by apply (list_elem_of_fmap_2 fst)).
  unfold index_le in Hall. lia.
Qed.

(** The values of an object whose values know their keys, by key:
    [Object.values] lists the array indices among the keys in ascending
    order and then the other keys in the order of their creation. *)
Lemma Object_values_keys (key_of : V → string) obj :
  NoDup obj.*1 → Forall (λ kv, key_of kv.2 = kv.1) obj →
  ∃ indices,
    key_of <$> Object_values obj
    = indices ++ filter (λ k, array_index k = None) obj.*1
    ∧ StronglySorted index_before indices
    ∧ indices ≡ₚ filter (λ k, is_Some (array_index k)) obj.*1.
Proof.
  intros Hnd Hkeys. unfold Object_values.
  exists ((key_of ∘ snd) <$> merge_sort index_le (omap index_entry obj)).
  split_and!.
  - rewrite fmap_app, <- !list_fmap_compose. f_equal.
    by apply other_entries_keys.
  - apply index_entries_sorted.
    + apply Sorted_StronglySorted; [apply _ |]. apply Sorted_merge_sort; apply _.
    + rewrite merge_sort_Permutation. by apply index_entries_NoDup.
    + rewrite merge_sort_Permutation. apply Forall_forall.
      intros e (k & Hin & Hk)%index_entries_elem.
      eapply Forall_forall in Hkeys; [| done]. simpl in Hkeys. by rewrite Hkeys.
  - rewrite merge_sort_Permutation. by rewrite index_entries_keys.
Qed.

Lemma index_before_entries (A : list (string * V)) :
  Forall (λ k, is_Some (array_index k)) A.*1 →
  StronglySorted index_before A.*1 →
  snd <$> omap index_entry A = A.*2
  ∧ StronglySorted index_le (omap index_entry A)
  ∧ (∀ e, e ∈ omap index_entry A → ∃ k, k ∈ A.*1 ∧ array_index k = Some e.1).
Proof.
  induction A as [|[k v] A IH]; [intros _ _; split_and!; [done | constructor |];
    by intros e ?%elem_of_nil |].
  rewrite !fmap_cons, Forall_cons. cbn [fst snd]. intros [[n Hn] Hall] Hs.
  apply StronglySorted_inv in Hs as [Hs Hk].
  destruct (IH Hall Hs) as (IH1 & IH2 & IH3).
  assert (index_entry (k, v) = Some (n, v)) as Hentry
    by (unfold index_entry; cbn; by rewrite Hn).
  cbn [omap list_omap]. rewrite Hentry. split_and!.
  - rewrite fmap_cons. cbn. by rewrite IH1.
  - constructor; [done |]. apply Forall_forall. intros e He.
    destruct (IH3 e He) as (k' & Hk' & Hidx).
    eapply Forall_forall in Hk; [| done].
    unfold index_before in Hk. rewrite Hn, Hidx in Hk. unfold index_le. cbn. lia.
  - intros e [->|He]%elem_of_cons.
    + exists k. split; [left | done].
    + destruct (IH3 e He) as (k' & ? & ?). exists k'. split; [by right | done].
Qed.

Lemma StronglySorted_index_before_NoDup (keys : list string) :
  StronglySorted index_before keys → NoDup keys.
Proof.
  induction 1 as [|k keys Hs IH Hall]; [apply NoDup_nil_2 |].
  apply NoDup_cons. split; [| done]. intros Hin.
  eapply Forall_forall in Hall; [| done]. unfold index_before in Hall.
  destruct (array_index k); [lia | done].
Qed.

(** An object whose keys were created in key order lists its values in the
    order of their creation. *)
Lemma Object_values_in_key_order obj :
  in_key_order obj.*1 → Object_values obj = obj.*2.
Proof.
  intros (indices & others & Hkeys & Hsorted & Hidx & Hoth).
  apply fmap_app_inv in Hkeys as (A & B & HA & HB & ->). subst indices others.
  destruct (index_before_entries A Hidx Hsorted) as (Hvals & Hs & Helem).
  unfold Object_values. rewrite omap_app, filter_app, !fmap_app.
  assert (omap index_entry B = []) as ->.
  { clear -Hoth. induction B as [|[k v] B IH]; [done |].
    rewrite fmap_cons, Forall_cons in Hoth. destruct Hoth as [Hk Hoth].
    cbn [omap list_omap]. unfold index_entry at 1. simpl in *. rewrite Hk.
    by apply IH. }
  assert (filter (λ kv : string * V, array_index kv.1 = None) A = []) as ->.
  { clear -Hidx. induction A as [|[k v] A IH]; [done |].
    rewrite fmap_cons, Forall_cons in Hidx. destruct Hidx as [[n Hk] Hidx].
    simpl in Hk. rewrite filter_cons_False by (cbn; rewrite Hk; done). by apply IH. }
  assert (filter (λ kv : string * V, array_index kv.1 = None) B = B) as ->.
  { clear -Hoth. induction B as [|[k v] B IH]; [done |].
    rewrite fmap_cons, Forall_cons in Hoth. destruct Hoth as [Hk Hoth].
    rewrite filter_cons_True by done. by rewrite IH. }
  rewrite app_nil_r, app_nil_l. f_equal. rewrite <- Hvals. f_equal.
  assert (NoDup (omap index_entry A).*1) as Hnd.
  { apply index_entries_NoDup. by apply StronglySorted_index_before_NoDup. }
  apply (Sorted_unique_strong index_le).
  - intros x1 x2 Hx1 Hx2 H12 H21. rewrite merge_sort_Permutation in Hx1.
    unfold index_le in *. assert (x1.1 = x2.1) as Heq by lia.
    apply list_elem_of_lookup in Hx1 as [i Hi], Hx2 as [j Hj].
    assert (i = j) as ->; [| congruence].
    eapply NoDup_lookup; [exact Hnd | |]; rewrite list_lookup_fmap.
    + by rewrite Hi.
    + rewrite Hj. cbn. by rewrite Heq.
  - apply Sorted_merge_sort; apply _.
  - by apply StronglySorted_Sorted.
  - apply merge_sort_Permutation.
Qed.

End key_order.


Module ProfileContextFacts.
Import ProfileContext.

Lemma createPairs_filter it l :
  createPairs it l = make_pair it <$> filter (λ x, name_of it ≠ name_of x) l.
Proof.
  unfold createPairs.
  enough (∀ acc,
    fold_left (λ pairList pairItem,
       if decide (name_of it ≠ name_of pairItem)
       then pairList ++ [make_pair it pairItem] else pairList) l acc
    = acc ++ (make_pair it <$> filter (λ x, name_of it ≠ name_of x) l)) as H
    by apply (H []).
  induction l as [|x l IH]; intros acc; simpl.
  - by rewrite app_nil_r.
  - rewrite IH. destruct (decide (name_of it ≠ name_of x)).
    + rewrite filter_cons_True by done. by rewrite <- app_assoc.
    + by rewrite filter_cons_False by done.
Qed.

Lemma createPairList_bind l :
  createPairList l = l ≫= (λ it, createPairs it l).
Proof.
  unfold createPairList.
  enough (∀ l0 acc,
    fold_left (λ result it, result ++ createPairs it l) l0 acc
    = acc ++ (l0 ≫= (λ it, createPairs it l))) as H by apply (H l []).
  induction l0 as [|x l0 IH]; intros acc; simpl.
  - by rewrite app_nil_r.
  - by rewrite IH, app_assoc.
Qed.

(** Counting in a list of items with distinct names. *)
Lemma filter_all {A} (P : A → Prop) `{!∀ x, Decision (P x)} (l : list A) :
  Forall P l → filter P l = l.
Proof.
  induction 1 as [|x l Hx _ IH]; [done |].
  by rewrite filter_cons_True, IH.
Qed.

Lemma filter_none {A} (P : A → Prop) `{!∀ x, Decision (P x)} (l : list A) :
  Forall (λ x, ¬ P x) l → filter P l = [].
Proof.
  induction 1 as [|x l Hx _ IH]; [done |].
  by rewrite filter_cons_False.
Qed.

Lemma count_key {A} (f : A → string) (l : list A) (k : string) :
  NoDup (f <$> l) → k ∈ f <$> l → length (filter (λ x, f x = k) l) = 1.
Proof.
  induction l as [|a l IH]; [by intros _ ?%elem_of_nil |].
  rewrite fmap_cons, NoDup_cons. intros [Ha Hnd] Hin.
  destruct (decide (f a = k)) as [<-|Hne].
  - rewrite filter_cons_True by done. simpl. f_equal.
    rewrite filter_none; [done |].
    apply Forall_forall. intros y Hy Heq. apply Ha.
    rewrite <- Heq. by apply list_elem_of_fmap_2.
  - rewrite filter_cons_False by done. apply IH; [done |].
    apply elem_of_cons in Hin as [?|?]; [congruence | done].
Qed.

Lemma count_others {A} (f : A → string) (l : list A) (k : string) :
  NoDup (f <$> l) → k ∈ f <$> l →
  length (filter (λ x, k ≠ f x) l) = length l - 1.
Proof.
  induction l as [|a l IH]; [by intros _ ?%elem_of_nil |].
  rewrite fmap_cons, NoDup_cons. intros [Ha Hnd] Hin.
  destruct (decide (k = f a)) as [->|Hne].
  - rewrite filter_cons_False by (intros ?; done).
    rewrite filter_all; [simpl; lia |].
    apply Forall_forall. intros y Hy Heq. apply Ha.
    rewrite Heq. by apply list_elem_of_fmap_2.
  - rewrite filter_cons_True by done.
    apply elem_of_cons in Hin as [?|Hin]; [done |].
    simpl. rewrite IH by done.
    assert (0 < length l).
    { apply list_elem_of_fmap in Hin as (y & _ & Hy).
      destruct l; [by apply elem_of_nil in Hy | simpl; lia]. }
    lia.
Qed.

Lemma filter_disjoint_or {A} (P Q : A → Prop)
    `{!∀ x, Decision (P x)} `{!∀ x, Decision (Q x)} (l : list A) :
  (∀ x, P x → Q x → False) →
  length (filter (λ x, P x ∨ Q x) l) = length (filter P l) + length (filter Q l).
Proof.
  intros Hdisj. induction l as [|a l IH]; [done |].
  destruct (decide (P a)) as [HP|HP]; destruct (decide (Q a)) as [HQ|HQ].
  - destruct (Hdisj a HP HQ).
  - rewrite (filter_cons_True P), (filter_cons_False Q) by done.
    rewrite filter_cons_True by (by left). simpl. lia.
  - rewrite (filter_cons_False P), (filter_cons_True Q) by done.
    rewrite filter_cons_True by (by right). simpl. lia.
  - rewrite (filter_cons_False P), (filter_cons_False Q) by done.
    rewrite filter_cons_False by (intros [?|?]; done). done.
Qed.

Lemma createPairs_count x y it l :
  Forall normalised l → normalised it → x ≠ y →
  length (filter (ordered_pair x y) (createPairs it l))
  = (if decide (id it = x) then 1 else 0) * length (filter (λ c, id c = y) l).
Proof.
  intros Hl Hit Hxy. rewrite createPairs_filter.
  induction Hl as [|c l Hc Hl IH]; [by case_decide |].
  destruct (decide (name_of it ≠ name_of c)) as [Hne|Heq].
  - rewrite filter_cons_True by done. rewrite fmap_cons.
    destruct (decide (ordered_pair x y (make_pair it c))) as [[Hx Hy]|Hno].
    + simpl in Hx, Hy. rewrite filter_cons_True by done.
      rewrite (filter_cons_True (λ c, id c = y)) by done.
      simpl. rewrite IH. rewrite decide_True by done. lia.
    + rewrite filter_cons_False by done. rewrite IH.
      case_decide as Hx; [| lia].
      rewrite (filter_cons_False (λ c, id c = y)); [done |].
      intros Hy. apply Hno. done.
  - rewrite filter_cons_False by done. rewrite IH.
    case_decide as Hx; [| lia].
    rewrite (filter_cons_False (λ c, id c = y)); [done |].
    intros Hy. apply Heq. unfold normalised in *. congruence.
Qed.

Section pairs_of_distinct_names.
Variable l : list ProcessedComparisonItem.
Hypothesis l_distinct : NoDup (name_of <$> l).

Lemma createPairs_length it :
  it ∈ l → length (createPairs it l) = length l - 1.
Proof.
  intros Hin. rewrite createPairs_filter, length_fmap.
  apply count_others; [done | by apply list_elem_of_fmap_2].
Qed.

Lemma createPairList_length :
  length (createPairList l) = length l * (length l - 1).
Proof.
  rewrite createPairList_bind.
  enough (∀ l0, l0 ⊆ l →
    length (l0 ≫= (λ it, createPairs it l)) = length l0 * (length l - 1)) as H
    by (by apply H).
  induction l0 as [|x l0 IH]; intros Hsub; [done |].
  rewrite bind_cons, length_app, createPairs_length, IH.
  - simpl. lia.
  - intros y Hy. apply Hsub. by right.
  - apply Hsub. left.
Qed.

Lemma createPairList_sides p :
  p ∈ createPairList l →
  left_side p ∈ l ∧ right_side p ∈ l
  ∧ name_of (left_side p) ≠ name_of (right_side p).
Proof.
  rewrite createPairList_bind, list_elem_of_bind.
  intros (it & Hp & Hit). rewrite createPairs_filter in Hp.
  apply list_elem_of_fmap in Hp as (c & -> & Hc).
  apply list_elem_of_filter in Hc as [Hne Hc]. done.
Qed.

Hypothesis l_normalised : Forall normalised l.

Lemma createPairList_count x y :
  x ∈ id <$> l → y ∈ id <$> l → x ≠ y →
  length (filter (ordered_pair x y) (createPairList l)) = 1.
Proof.
  intros Hx Hy Hxy.
  assert (id <$> l = name_of <$> l) as Hids.
  { apply list_fmap_ext. intros i c Hc.
    eapply Forall_lookup_1 in l_normalised; [| done]. done. }
  rewrite createPairList_bind.
  assert (∀ l0, Forall normalised l0 →
    length (filter (ordered_pair x y) (l0 ≫= (λ it, createPairs it l)))
    = length (filter (λ c, id c = x) l0) * length (filter (λ c, id c = y) l)) as H.
  { induction 1 as [|c l0 Hc Hl0 IH]; [done |].
    rewrite bind_cons, filter_app, length_app, IH, createPairs_count by done.
    destruct (decide (id c = x)).
    - rewrite filter_cons_True by done. simpl. lia.
    - rewrite filter_cons_False by done. simpl. lia. }
  rewrite H by done.
  rewrite !count_key; [done | | | |]; by rewrite ?Hids in *.
Qed.

Lemma createPairList_count_unordered x y :
  x ∈ id <$> l → y ∈ id <$> l → x ≠ y →
  length (filter (unordered_pair x y) (createPairList l)) = 2.
Proof.
  intros Hx Hy Hxy.
  pose proof (filter_disjoint_or (ordered_pair x y) (ordered_pair y x)
                (createPairList l)) as H.
  rewrite !createPairList_count in H by done.
  apply H. intros p [? ?] [? ?]. congruence.
Qed.

End pairs_of_distinct_names.

Lemma uniqueByName_step_keyed nameMap it :
  keyed_by_name nameMap → keyed_by_name (uniqueByName_step nameMap it).
Proof.
  intros [Hnd Hall]. unfold uniqueByName_step, assign_ordered.
  case_decide; [done |]. split; [by apply put_NoDup |].
  apply Forall_forall. intros kv [->|Hin]%put_elem; [done |].
  by eapply Forall_forall in Hall.
Qed.

Lemma uniqueByName_nameMap_keyed l nameMap :
  keyed_by_name nameMap → keyed_by_name (fold_left uniqueByName_step l nameMap).
Proof.
  revert nameMap. induction l as [|it l IH]; intros nameMap H; [done |].
  simpl. by apply IH, uniqueByName_step_keyed.
Qed.

Lemma uniqueByName_keyed l :
  NoDup (name_of <$> uniqueByName l)
  ∧ Forall normalised (uniqueByName l)
  ∧ Forall (λ c, score c = 0%Z) (uniqueByName l).
Proof.
  unfold uniqueByName, Array_sort.
  change (fold_left _ l []) with (fold_left uniqueByName_step l []).
  destruct (uniqueByName_nameMap_keyed l []) as [Hnd Hall].
  { split; [apply NoDup_nil_2 | done]. }
  set (nameMap := fold_left uniqueByName_step l []) in *.
  assert (Forall (λ c, id c = name_of c ∧ score c = 0%Z) nameMap.*2) as Hvals.
  { apply Forall_fmap. eapply Forall_impl; [done |].
    intros [k c] (? & ? & ?); simpl in *. split; congruence. }
  assert (name_of <$> nameMap.*2 = nameMap.*1) as Hkeys.
  { rewrite <- list_fmap_compose. apply list_fmap_ext.
    intros i [k c] Hc. eapply Forall_lookup_1 in Hall; [| done]. simpl in *. tauto. }
  rewrite (Object_values_Permutation nameMap). rewrite Hkeys.
  split; [done |]. split.
  - eapply Forall_impl; [done |]. intros c [? ?]. done.
  - eapply Forall_impl; [done |]. intros c [? ?]. done.
Qed.

(** What [createPairList] returns for the candidates of [uniqueByName]: for
    every list of raw items the candidates have distinct ids, and
    [createPairList] over these n candidates returns n * (n - 1) voting pairs:
    both sides of a pair are candidates, no pair has the same candidate on
    both sides, each ordered pair (left, right) of distinct candidate ids
    occurs exactly once, and so each unordered pair occurs exactly twice, once
    in each orientation. *)
Lemma createPairList_uniqueByName (raw : list ComparisonItem) :
  let candidates := uniqueByName raw in
  let n := length candidates in
  let pairList := createPairList candidates in
  NoDup (id <$> candidates)
  ∧ length pairList = n * (n - 1)
  ∧ (∀ p, p ∈ pairList →
       left_side p ∈ candidates ∧ right_side p ∈ candidates
       ∧ id (left_side p) ≠ id (right_side p))
  ∧ (∀ x y, x ∈ id <$> candidates → y ∈ id <$> candidates → x ≠ y →
       length (filter (ordered_pair x y) pairList) = 1
       ∧ length (filter (unordered_pair x y) pairList) = 2).
Proof.
  intros candidates n pairList.
  destruct (uniqueByName_keyed raw) as (Hnd & Hnorm & _).
  fold candidates in Hnd, Hnorm.
  assert (id <$> candidates = name_of <$> candidates) as Hids.
  { apply list_fmap_ext. intros i c Hc.
    by eapply Forall_lookup_1 in Hnorm. }
  split_and!.
  - by rewrite Hids.
  - by apply createPairList_length.
  - intros p Hp.
    destruct (createPairList_sides candidates p Hp) as (Hl & Hr & Hne).
    split_and!; [done | done |].
    eapply Forall_forall in Hl, Hr; [| exact Hnorm | exact Hnorm].
    unfold normalised in *. congruence.
  - intros x y Hx Hy Hxy. split.
    + by apply createPairList_count.
    + by apply createPairList_count_unordered.
Qed.

(** Claim C1 at the raw items A and B. They normalise to two candidates with
    distinct names, for which the claim has 2 * (2 - 1) / 2 = 1 pair, each
    unordered pair once, and the comment of [createPairList] has
    (N - 1)^2 = 1 pair. [createPairList] returns two pairs, (A, B) and
    (B, A): the unordered pair of A and B occurs twice. For every list of raw
    items it returns n * (n - 1) pairs for the n candidates, which is neither
    number as soon as there are two candidates. *)
Theorem createPairList_two_candidates :
  let A := {| name := "A"; image := None |} in
  let B := {| name := "B"; image := None |} in
  let candidates := uniqueByName [A; B] in
  (id <$> candidates) = ["A"; "B"]
  ∧ (left_side <$> createPairList candidates) = candidates
  ∧ (right_side <$> createPairList candidates) = reverse candidates
  ∧ length (createPairList candidates) = 2
  ∧ length (createPairList candidates) ≠ 2 * (2 - 1) / 2
  ∧ length (createPairList candidates) ≠ (2 - 1) ^ 2
  ∧ length (filter (unordered_pair "A" "B") (createPairList candidates)) ≠ 1
  ∧ (∀ raw,
       length (createPairList (uniqueByName raw))
       = length (uniqueByName raw) * (length (uniqueByName raw) - 1)).
Proof.
  cbv zeta. do 7 (split; [by vm_compute |]).
  intros raw. destruct (uniqueByName_keyed raw) as (Hnd & _ & _).
  by apply createPairList_length.
Qed.

(** *** The key of a new profile *)

Lemma inherited_proto : inherited "__proto__" = true.
Proof. done. Qed.

Lemma truthy_at_false_own {V} (m : gmap string V) k :
  truthy_at m k = false → m !! k = None ∧ k ≠ "__proto__"%string.
Proof.
  intros [Hk Hin]%truthy_at_false. split; [done |].
  intros ->. by rewrite inherited_proto in Hin.
Qed.

(** The loop, started at the k-th key: it stops at the first key that reads
    as falsy, and at the last key when the [safetyCheck] is used up. *)
Lemma uniqueKey_first_free env (m : gmap string ProfileItem) name safetyCheck k j :
  j ≤ safetyCheck →
  (∀ i, i < j → truthy_at m (key_at env name (k + i)) = true) →
  truthy_at m (key_at env name (k + j)) = false →
  uniqueKey env m name safetyCheck k (key_at env name k) = key_at env name (k + j).
Proof.
  revert safetyCheck k. induction j as [|j IH]; intros safetyCheck k Hle Htaken Hfree.
  - rewrite Nat.add_0_r in *. destruct safetyCheck; simpl; by rewrite Hfree.
  - destruct safetyCheck as [|n]; [lia |]. simpl.
    rewrite <- (Nat.add_0_r k) at 1. rewrite (Htaken 0) by lia.
    fold (key_at env name (S k)).
    rewrite (IH n (S k)); [f_equal; lia | lia | |].
    + intros i Hi. replace (S k + i) with (k + S i) by lia. apply Htaken. lia.
    + by replace (S k + j) with (k + S j) by lia.
Qed.

Lemma uniqueKey_exhausted env (m : gmap string ProfileItem) name safetyCheck k :
  (∀ i, i ≤ safetyCheck → truthy_at m (key_at env name (k + i)) = true) →
  uniqueKey env m name safetyCheck k (key_at env name k)
  = key_at env name (k + safetyCheck).
Proof.
  revert k. induction safetyCheck as [|n IH]; intros k Htaken.
  - simpl. rewrite <- (Nat.add_0_r k) at 1. rewrite (Htaken 0) by lia.
    by rewrite Nat.add_0_r.
  - simpl. rewrite <- (Nat.add_0_r k) at 1. rewrite (Htaken 0) by lia.
    fold (key_at env name (S k)). rewrite IH; [f_equal; lia |].
    intros i Hi. replace (S k + i) with (k + S i) by lia. apply Htaken. lia.
Qed.

(** Property X6.

    [PROFILE_ADD] when one of the first 101 generated keys is free: the
    profile is stored under the first free key and selected, the profiles that
    were there are all kept, and the invariant of the root state holds. *)
Theorem add_profile_fresh_key env state name l j :
  j ≤ 100 →
  (∀ i, i < j → truthy_at (profiles state) (key_at env name i) = true) →
  truthy_at (profiles state) (key_at env name j) = false →
  ∃ state',
    reducer env state (PROFILE_ADD name l) = Return state'
    ∧ currentProfile state' = Some (key_at env name j)
    ∧ profiles state !! key_at env name j = None
    ∧ profiles state' !! key_at env name j = Some (new_profile env name l)
    ∧ (∀ k, k ≠ key_at env name j → profiles state' !! k = profiles state !! k)
    ∧ size (profiles state') = S (size (profiles state))
    ∧ current_is_profile state'.
Proof.
  intros Hj Htaken Hfree.
  destruct (truthy_at_false_own _ _ Hfree) as [Hnone Hproto].
  pose proof (uniqueKey_first_free env (profiles state) name 100 0 j Hj Htaken Hfree)
    as Hkey.
  eexists. split; [reflexivity |]. cbn [currentProfile profiles].
  change (generateNewKey env 0 name) with (key_at env name 0). rewrite Hkey.
  cbn [Nat.add]. fold (new_profile env name l).
  assert (assign (key_at env name j) (new_profile env name l) (profiles state)
          = <[key_at env name j := new_profile env name l]> (profiles state)) as ->.
  { unfold assign. by rewrite (bool_decide_eq_false_2 _ Hproto). }
  split_and!.
  - done.
  - done.
  - apply lookup_insert_eq.
  - intros k Hk. by apply lookup_insert_ne.
  - by apply map_size_insert_None.
  - unfold current_is_profile. cbn. rewrite lookup_insert_eq. eauto.
Qed.

(** Property X7.

    [PROFILE_ADD] when all of the 101 generated keys are keys of profiles:
    the loop gives up after 100 new keys and the profile replaces the one
    stored under the last key; no profile is added. *)
Theorem add_profile_overwrites env state name l :
  (∀ i, i ≤ 100 → is_Some (profiles state !! key_at env name i)) →
  ∃ state',
    reducer env state (PROFILE_ADD name l) = Return state'
    ∧ currentProfile state' = Some (key_at env name 100)
    ∧ profiles state' !! key_at env name 100 = Some (new_profile env name l)
    ∧ (∀ k, k ≠ key_at env name 100 → profiles state' !! k = profiles state !! k)
    ∧ size (profiles state') = size (profiles state).
Proof.
  intros Htaken.
  assert (uniqueKey env (profiles state) name 100 0 (key_at env name 0)
          = key_at env name 100) as Hkey.
  { apply (uniqueKey_exhausted env (profiles state) name 100 0).
    intros i Hi. destruct (Htaken i Hi) as [p Hp]. by eapply truthy_at_own. }
  destruct (Htaken 100) as [q Hq]; [lia |].
  eexists. split; [reflexivity |]. cbn [currentProfile profiles].
  change (generateNewKey env 0 name) with (key_at env name 0). rewrite Hkey.
  fold (new_profile env name l).
  assert (assign (key_at env name 100) (new_profile env name l) (profiles state)
          = <[key_at env name 100 := new_profile env name l]> (profiles state)) as ->.
  { unfold assign. rewrite (bool_decide_eq_false_2 (_ !! _ = None)) by congruence.
    by rewrite andb_false_r. }
  split_and!.
  - done.
  - apply lookup_insert_eq.
  - intros k Hk. by apply lookup_insert_ne.
  - rewrite <- (insert_delete_eq (profiles state)).
    rewrite map_size_insert_None by apply lookup_delete_eq.
    rewrite <- (insert_delete_id (profiles state) _ _ Hq) at 2.
    by rewrite map_size_insert_None by apply lookup_delete_eq.
Qed.

(** *** The selectors after [PROFILE_ADD] *)

(** Property X8.

    The selectors throw on the initial state, which has no current profile.
    After [PROFILE_ADD] of a list with n distinct names (["__proto__"] apart)
    the current profile has n candidates, [getTotalComparisons] returns
    n * (n - 1) and [getProgress] returns 0, unless the generated key is
    ["__proto__"]. *)
Theorem totals_after_add_profile env state name l :
  getTotalComparisons initialState = Throw TypeError
  ∧ getProgress initialState = Throw TypeError
  ∧ ∃ state' key,
      reducer env state (PROFILE_ADD name l) = Return state'
      ∧ currentProfile state' = Some key
      ∧ (key ≠ "__proto__"%string →
           let n := length (uniqueByName l) in
           (list_ <$> profile (getCurrentProfile state')) = Some (uniqueByName l)
           ∧ getTotalComparisons state' = Return (n * (n - 1))
           ∧ getProgress state' = Return 0).
Proof.
  split; [done |]. split; [done |].
  eexists _, _. split; [reflexivity |]. split; [reflexivity |].
  intros Hkey n.
  set (key := uniqueKey _ _ _ _ _ _) in *.
  assert (profile (getCurrentProfile
            {| currentProfile := Some key;
               profiles := assign key (new_profile env name l) (profiles state) |})
          = Some (new_profile env name l)) as Hprofile.
  { unfold getCurrentProfile. cbn. unfold assign.
    rewrite (bool_decide_eq_false_2 _ Hkey). apply lookup_insert_eq. }
  unfold getTotalComparisons, getProgress. fold (new_profile env name l).
  rewrite Hprofile. cbn [fmap option_fmap option_map list_ pairs voted new_profile length].
  split_and!; [done | | done].
  destruct (uniqueByName_keyed l) as (Hnd & _ & _).
  rewrite (createPairList_length _ Hnd). f_equal. fold n. lia.
Qed.

(** *** The pairs of any list *)

(** Property X5.

    [createPairList] of any list, names repeated or not: its pairs are the
    pairs of two members of the list with different names, and of nothing
    else; no pair has a winner. *)
Theorem createPairList_members (l : list ProcessedComparisonItem) p :
  p ∈ createPairList l
  ↔ ∃ a b, a ∈ l ∧ b ∈ l ∧ name_of a ≠ name_of b
           ∧ p = {| left_side := a; right_side := b; winner := None |}.
Proof.
  rewrite createPairList_bind, list_elem_of_bind. split.
  - intros (a & Hp & Ha). rewrite createPairs_filter in Hp.
    apply list_elem_of_fmap in Hp as (b & -> & Hb).
    apply list_elem_of_filter in Hb as [Hne Hb]. by exists a, b.
  - intros (a & b & Ha & Hb & Hne & ->). exists a. split; [| done].
    rewrite createPairs_filter. apply list_elem_of_fmap. exists b.
    split; [done |]. by apply list_elem_of_filter.
Qed.

(** *** The normaliser *)

Lemma first_occurrences_elem seen names n :
  n ∈ first_occurrences seen names ↔ n ∈ names ∧ n ∉ seen.
Proof.
  revert seen. induction names as [|x names IH]; intros seen; simpl.
  - split; [by intros ?%elem_of_nil | by intros [?%elem_of_nil _]].
  - rewrite elem_of_app, IH, elem_of_cons, elem_of_app, list_elem_of_singleton.
    destruct (decide (x ∈ seen)) as [Hx|Hx].
    + rewrite elem_of_nil. split.
      * intros [[]|[Hn Hs]]. split; [by right | tauto].
      * intros [[->|Hn] Hs]; [done |]. right. split; [done |].
        intros [?| ->]; done.
    + rewrite list_elem_of_singleton. split.
      * intros [->|[Hn Hs]]; [split; [by left | done] |]. split; [by right | tauto].
      * intros [[->|Hn] Hs]; [by left |].
        destruct (decide (n = x)) as [->|Hne]; [by left |].
        right. split; [done |]. intros [?|?]; done.
Qed.

Lemma first_occurrences_length seen names :
  length (first_occurrences seen names) ≤ length names.
Proof.
  revert seen. induction names as [|x names IH]; intros seen; simpl; [lia |].
  rewrite length_app. specialize (IH (seen ++ [x])).
  case_decide; simpl; lia.
Qed.

(** The keys of the [nameMap], in the order of their creation. *)
Lemma nameMap_keys l nameMap seen :
  (∀ n, n ∈ seen ↔ n ∈ nameMap.*1) →
  (fold_left uniqueByName_step l nameMap).*1
  = nameMap.*1 ++ first_occurrences seen (own_names l).
Proof.
  revert nameMap seen. induction l as [|x l IH]; intros nameMap seen Hseen.
  - simpl. by rewrite app_nil_r.
  - cbn [fold_left]. unfold own_names. rewrite fmap_cons.
    unfold uniqueByName_step at 2, assign_ordered.
    destruct (decide (name x = "__proto__"%string)) as [Hx|Hx].
    + rewrite filter_cons_False by (intros ?; done). by apply IH.
    + rewrite filter_cons_True by done. cbn [first_occurrences].
      rewrite (IH _ (seen ++ [name x])).
      * rewrite put_keys. fold (own_names l).
        destruct (decide (name x ∈ nameMap.*1)) as [Hin|Hnin].
        -- rewrite decide_True by (by apply Hseen). done.
        -- rewrite decide_False by (by rewrite Hseen). by rewrite <- app_assoc.
      * intros n. rewrite put_keys, elem_of_app, list_elem_of_singleton, Hseen.
        case_decide as Hin.
        -- split; [intros [?| ->]; done | by left].
        -- by rewrite elem_of_app, list_elem_of_singleton.
Qed.

Lemma uniqueByName_ids l :
  id <$> uniqueByName l ≡ₚ first_occurrences [] (own_names l).
Proof.
  unfold uniqueByName, Array_sort.
  change (fold_left _ l []) with (fold_left uniqueByName_step l []).
  destruct (uniqueByName_nameMap_keyed l []) as [Hnd Hall].
  { split; [apply NoDup_nil_2 | done]. }
  pose proof (nameMap_keys l [] [] ltac:(done)) as Hkeys. cbn [fmap list_fmap app] in Hkeys.
  rewrite <- Hkeys. clear Hkeys.
  set (nameMap := fold_left uniqueByName_step l []) in *.
  rewrite (Object_values_Permutation nameMap).
  rewrite <- list_fmap_compose.
  erewrite (list_fmap_ext (id ∘ snd) fst); [done |].
  intros i [k c] Hc. eapply Forall_lookup_1 in Hall; [| done]. simpl in *. tauto.
Qed.

(** Property X1.

    [uniqueByName] returns one candidate for each name of the list other than
    ["__proto__"], and for no other name: the ids are these names, each once;
    every candidate has its name as id and score 0; there are at most as many
    candidates as rows, and none for the empty list. *)
Theorem uniqueByName_one_per_name (l : list ComparisonItem) :
  (∀ n, n ∈ id <$> uniqueByName l
        ↔ n ∈ name <$> l ∧ n ≠ "__proto__"%string)
  ∧ NoDup (id <$> uniqueByName l)
  ∧ Forall (λ c, id c = name (item c) ∧ score c = 0%Z) (uniqueByName l)
  ∧ length (uniqueByName l) ≤ length l
  ∧ uniqueByName [] = [].
Proof.
  destruct (uniqueByName_keyed l) as (Hnd & Hnorm & Hscore).
  assert (id <$> uniqueByName l = name_of <$> uniqueByName l) as Hids.
  { apply list_fmap_ext. intros i c Hc. by eapply Forall_lookup_1 in Hnorm. }
  split_and!.
  - intros n. rewrite uniqueByName_ids, first_occurrences_elem.
    unfold own_names. rewrite list_elem_of_filter, elem_of_nil. tauto.
  - by rewrite Hids.
  - apply Forall_forall. intros c Hc.
    eapply Forall_forall in Hnorm, Hscore; [| done | done]. done.
  - rewrite <- (length_fmap id), uniqueByName_ids.
    etrans; [apply first_occurrences_length |].
    unfold own_names. etrans; [apply length_filter |]. by rewrite length_fmap.
  - done.
Qed.

(** A write keeps the entries of the other keys and no entry of its key. *)
Lemma put_elem_other {V} k (v : V) obj kv :
  NoDup obj.*1 → kv ∈ put k v obj → kv = (k, v) ∨ (kv ∈ obj ∧ kv.1 ≠ k).
Proof.
  induction obj as [|[k' v'] obj IH]; simpl.
  - intros _ ->%list_elem_of_singleton. by left.
  - rewrite NoDup_cons. intros [Hk' Hnd].
    destruct (decide (k = k')) as [->|Hne].
    + intros [->|Hin]%elem_of_cons; [by left | right].
      split; [by right |]. intros Heq. apply Hk'. rewrite <- Heq.
      by apply (list_elem_of_fmap_2 fst).
    + intros [->|Hin]%elem_of_cons; [right; split; [left | done] |].
      destruct (IH Hnd Hin) as [->|[? ?]]; [by left | right].
      split; [by right | done].
Qed.

(** The entry of a name in the [nameMap] is made from the last row of that
    name. *)
Lemma nameMap_last l :
  ∀ kv, kv ∈ fold_left uniqueByName_step l [] →
    ∃ l1 l2, l = l1 ++ item (snd kv) :: l2 ∧ (kv.1 ∉ name <$> l2)
             ∧ name (item kv.2) = kv.1 ∧ kv.1 ≠ "__proto__"%string.
Proof.
  induction l as [|x l IH] using rev_ind; [by intros kv ?%elem_of_nil |].
  rewrite fold_left_app. cbn [fold_left].
  pose proof (uniqueByName_nameMap_keyed l [] ltac:(split; [apply NoDup_nil_2 | done]))
    as [Hnd _].
  set (nameMap := fold_left uniqueByName_step l []) in *.
  assert (∀ kv, kv ∈ nameMap → kv.1 ≠ name x →
    ∃ l1 l2, l ++ [x] = l1 ++ item (snd kv) :: l2 ∧ (kv.1 ∉ name <$> l2)
             ∧ name (item kv.2) = kv.1 ∧ kv.1 ≠ "__proto__"%string) as Hold.
  { intros kv Hkv Hne. destruct (IH kv Hkv) as (l1 & l2 & -> & Hlast & Hname & Hproto).
    exists l1, (l2 ++ [x]). rewrite <- app_assoc. split_and!; try done.
    rewrite fmap_app, elem_of_app. intros [?|Hx%list_elem_of_singleton]; done. }
  intros kv. unfold uniqueByName_step at 1, assign_ordered. case_decide as Hx.
  - intros Hkv. apply Hold; [done |]. rewrite Hx.
    by destruct (IH kv Hkv) as (_ & _ & _ & _ & _ & ?).
  - intros [->|[Hkv Hne]]%put_elem_other; [| by apply Hold | done].
    exists l, []. cbn. split_and!; try done. apply not_elem_of_nil.
Qed.

(** Property X2.

    Last write wins: each candidate that [uniqueByName] returns is made from
    the last row of its name, so it has the image of that row. *)
Theorem uniqueByName_last_row (l : list ComparisonItem) c :
  c ∈ uniqueByName l →
  ∃ l1 l2, l = l1 ++ (item c :: l2) ∧ name (item c) ∉ name <$> l2.
Proof.
  unfold uniqueByName, Array_sort.
  change (fold_left _ l []) with (fold_left uniqueByName_step l []).
  rewrite (Object_values_Permutation _).
  intros ([k c'] & -> & Hkv)%list_elem_of_fmap.
  destruct (nameMap_last l _ Hkv) as (l1 & l2 & Hl & Hlast & Hname & _).
  simpl in *. exists l1, l2. by rewrite Hname.
Qed.

(** Property X3.

    The order of the candidates is the order of the keys of the [nameMap]:
    the names that are array indices come first, ascending by index, then the
    other names in the order of their first rows; a later row of a name does
    not move it. *)
Theorem uniqueByName_order (l : list ComparisonItem) :
  ∃ indices,
    id <$> uniqueByName l
    = indices ++ filter (λ k, array_index k = None) (first_occurrences [] (own_names l))
    ∧ StronglySorted index_before indices
    ∧ indices ≡ₚ filter (λ k, is_Some (array_index k))
                   (first_occurrences [] (own_names l)).
Proof.
  unfold uniqueByName, Array_sort.
  change (fold_left _ l []) with (fold_left uniqueByName_step l []).
  destruct (uniqueByName_nameMap_keyed l []) as [Hnd Hall].
  { split; [apply NoDup_nil_2 | done]. }
  pose proof (nameMap_keys l [] [] ltac:(done)) as Hkeys.
  cbn [fmap list_fmap app] in Hkeys. rewrite <- Hkeys.
  apply Object_values_keys; [done |].
  eapply Forall_impl; [exact Hall |]. intros kv. cbn. tauto.
Qed.

Lemma put_fresh {V} k (v : V) obj : k ∉ obj.*1 → put k v obj = obj ++ [(k, v)].
Proof.
  induction obj as [|[k' v'] obj IH]; [done |].
  rewrite fmap_cons, not_elem_of_cons. cbn. intros [Hne Hk].
  rewrite decide_False by done. by rewrite IH.
Qed.

Lemma nameMap_of_candidates (r : list ProcessedComparisonItem) nameMap :
  NoDup (nameMap.*1 ++ (id <$> r)) →
  Forall (λ c, id c = name (item c) ∧ score c = 0%Z ∧ id c ≠ "__proto__"%string) r →
  fold_left uniqueByName_step (item <$> r) nameMap
  = nameMap ++ ((λ c, (id c, c)) <$> r).
Proof.
  revert nameMap. induction r as [|c r IH]; intros nameMap Hnd Hall.
  - simpl. by rewrite app_nil_r.
  - apply Forall_cons in Hall as [(Hid & Hscore & Hproto) Hall].
    rewrite !fmap_cons in *. cbn [fold_left].
    assert (uniqueByName_step nameMap (item c) = nameMap ++ [(id c, c)]) as ->.
    { unfold uniqueByName_step, assign_ordered. rewrite <- Hid.
      rewrite decide_False by done.
      assert ({| item := item c; id := id c; score := 0 |} = c) as ->
        by (destruct c; simpl in *; by subst).
      apply put_fresh. apply NoDup_app in Hnd as (_ & Hnd & _).
      intros Hin. apply (Hnd _ Hin). left. }
    rewrite IH; [by rewrite <- app_assoc | | done].
    rewrite fmap_app. cbn. rewrite <- app_assoc. done.
Qed.

Lemma uniqueByName_made (l : list ComparisonItem) :
  NoDup (id <$> uniqueByName l)
  ∧ Forall (λ c, id c = name (item c) ∧ score c = 0%Z ∧ id c ≠ "__proto__"%string)
      (uniqueByName l).
Proof.
  destruct (uniqueByName_keyed l) as (Hnd & Hnorm & Hscore).
  assert (id <$> uniqueByName l = name_of <$> uniqueByName l) as Hids.
  { apply list_fmap_ext. intros i c Hc. by eapply Forall_lookup_1 in Hnorm. }
  split; [by rewrite Hids |].
  apply Forall_forall. intros c Hc.
  eapply Forall_forall in Hnorm, Hscore; [| done | done]. split_and!; [done | done |].
  apply (list_elem_of_fmap_2 id) in Hc.
  rewrite uniqueByName_ids, first_occurrences_elem in Hc. destruct Hc as [Hc _].
  unfold own_names in Hc. apply list_elem_of_filter in Hc. tauto.
Qed.

Lemma uniqueByName_in_key_order (l : list ComparisonItem) :
  in_key_order (id <$> uniqueByName l).
Proof.
  unfold uniqueByName, Array_sort.
  change (fold_left _ l []) with (fold_left uniqueByName_step l []).
  destruct (uniqueByName_nameMap_keyed l []) as [Hnd Hall].
  { split; [apply NoDup_nil_2 | done]. }
  set (nameMap := fold_left uniqueByName_step l []) in *.
  destruct (Object_values_keys id nameMap) as (indices & -> & Hsorted & Hperm);
    [done | |].
  { eapply Forall_impl; [exact Hall |]. intros kv. cbn. tauto. }
  exists indices, (filter (λ k, array_index k = None) nameMap.*1).
  split_and!; [done | done | |].
  - rewrite Hperm. apply Forall_forall. by intros k [? _]%list_elem_of_filter.
  - apply Forall_forall. by intros k [? _]%list_elem_of_filter.
Qed.

(** Property X4.

    [uniqueByName] is idempotent: the rows of its result give that result
    again, in the same order. *)
Theorem uniqueByName_idempotent (l : list ComparisonItem) :
  uniqueByName (item <$> uniqueByName l) = uniqueByName l.
Proof.
  destruct (uniqueByName_made l) as (Hnd & Hall).
  pose proof (uniqueByName_in_key_order l) as Horder.
  set (r := uniqueByName l) in *.
  unfold uniqueByName at 1, Array_sort.
  change (fold_left _ (item <$> r) [])
    with (fold_left uniqueByName_step (item <$> r) []).
  rewrite nameMap_of_candidates; [| done | done].
  cbn [app]. rewrite Object_values_in_key_order.
  - rewrite <- list_fmap_compose. apply list_fmap_id.
  - by rewrite <- list_fmap_compose.
Qed.

(** *** The states of the provider *)

Lemma assign_lookup_Some {V} (m : gmap string V) k v j x :
  assign k v m !! j = Some x → x = v ∨ m !! j = Some x.
Proof.
  unfold assign. case_match; [by right |].
  intros [[_ <-]|[_ ?]]%lookup_insert_Some; [by left | by right].
Qed.

Lemma assign_truthy {V} (m : gmap string V) k v j :
  truthy_at m j = true → truthy_at (assign k v m) j = true.
Proof.
  unfold truthy_at. intros [Hown| ->]%orb_true_iff; [| by rewrite orb_true_r].
  apply bool_decide_eq_true in Hown as [x Hx].
  rewrite bool_decide_eq_true_2; [done |].
  unfold assign. case_match; [eauto |].
  destruct (decide (j = k)) as [->|Hne].
  - rewrite lookup_insert_eq. eauto.
  - rewrite lookup_insert_ne by done. eauto.
Qed.

Lemma assign_truthy_key {V} (m : gmap string V) k v :
  truthy_at (assign k v m) k = true.
Proof.
  unfold truthy_at, assign. destruct (bool_decide (k = "__proto__"%string)) eqn:Hk.
  - apply bool_decide_eq_true in Hk as ->. by rewrite inherited_proto, orb_true_r.
  - cbn [andb]. rewrite lookup_insert_eq.
    rewrite bool_decide_eq_true_2; [done | eauto].
Qed.

(** The invariant of the states of the provider. *)
Lemma reducer_as_created env state action state' :
  (∀ k p, profiles state !! k = Some p → as_created p) →
  match currentProfile state with
  | Some k => truthy_at (profiles state) k = true
  | None => True
  end →
  reducer env state action = Return state' →
  (∀ k p, profiles state' !! k = Some p → as_created p)
  ∧ match currentProfile state' with
    | Some k => truthy_at (profiles state') k = true
    | None => True
    end.
Proof.
  intros Hall Hcur Hred. destruct action as [n l|i|t]; cbn in Hred.
  - injection Hred as <-. cbn [currentProfile profiles]. split.
    + intros k p [->|Hp]%assign_lookup_Some; [| by eapply Hall].
      split_and!; [by exists l | done | done].
    + apply assign_truthy_key.
  - destruct (truthy_at (profiles state) i) eqn:Hi; [| done].
    injection Hred as <-. done.
  - by injection Hred as <-.
Qed.

(** Property X9.

    This context has no action that votes: in every state that the provider
    reaches from [initialState], whatever is dispatched, each profile is as
    [PROFILE_ADD] made it, with no voted pair and a pair for each two
    candidates in each order. When the current key is a key of [profiles],
    [getProgress] returns 0 and [getTotalComparisons] n * (n - 1) for the n
    candidates of the profile. The current key is [null] or reads as a
    profile. *)
Theorem provider_states (steps : list (Env * Action)) state :
  useReducer steps = Return state →
  (∀ k p, profiles state !! k = Some p → as_created p)
  ∧ (∀ p, profile (getCurrentProfile state) = Some p →
       getProgress state = Return 0
       ∧ getTotalComparisons state
         = Return (length (list_ p) * (length (list_ p) - 1)))
  ∧ match currentProfile state with
    | Some k => truthy_at (profiles state) k = true
    | None => True
    end.
Proof.
  intros Hrun.
  assert ((∀ k p, profiles state !! k = Some p → as_created p)
          ∧ match currentProfile state with
            | Some k => truthy_at (profiles state) k = true
            | None => True
            end) as [Hall Hcur].
  { revert state Hrun. unfold useReducer.
    induction steps as [|[env action] steps IH] using rev_ind; intros state Hrun.
    - injection Hrun as <-. split; [| done]. intros k p. cbn.
      by rewrite lookup_empty.
    - rewrite foldl_app in Hrun. cbn [foldl fst snd] in Hrun.
      destruct (foldl _ _ steps) as [s|e]; [| done]. cbn in Hrun.
      destruct (IH s eq_refl) as [Hall Hcur].
      by eapply reducer_as_created. }
  split_and!; [done | | done].
  intros p Hp. unfold getProgress, getTotalComparisons. rewrite Hp.
  unfold getCurrentProfile in Hp. cbn [profile] in Hp.
  destruct (Hall _ _ Hp) as ([l Hl] & -> & ->). split; [done |].
  rewrite Hl. destruct (uniqueByName_keyed l) as (Hnd & _ & _).
  rewrite (createPairList_length _ Hnd). cbn [length]. f_equal. lia.
Qed.

(** *** Instances on the example rows *)

Lemma add_profile_fresh_key_witness :
  ∃ state',
    reducer example_env saved_state (PROFILE_ADD "letters" example_rows)
    = Return state'
    ∧ currentProfile state' = Some "letters_1700000000000_q2"%string
    ∧ size (profiles state') = 2.
Proof.
  destruct (add_profile_fresh_key example_env saved_state "letters" example_rows 1)
    as (state' & Hred & Hcur & _ & _ & _ & Hsize & _).
  - lia.
  - intros i Hi. assert (i = 0) as -> by lia. reflexivity.
  - reflexivity.
  - exists state'. split; [exact Hred |]. split; [exact Hcur |]. exact Hsize.
Defined.

Lemma add_profile_overwrites_witness :
  ∃ state',
    reducer stuck_env saved_state (PROFILE_ADD "letters" [])
    = Return state'
    ∧ profiles state' !! "letters_1700000000000_k7"
      = Some (new_profile stuck_env "letters" [])
    ∧ size (profiles state') = 1.
Proof.
  destruct (add_profile_overwrites stuck_env saved_state "letters" [])
    as (state' & Hred & _ & Hnew & _ & Hsize).
  - intros i _. eexists. reflexivity.
  - exists state'. split; [exact Hred |]. split; [exact Hnew |]. exact Hsize.
Defined.

Lemma uniqueByName_last_row_witness :
  ∃ l1 l2,
    example_rows = l1 ++ {| name := "A"; image := Some "a2.png"%string |} :: l2
    ∧ "A"%string ∉ name <$> l2.
Proof.
  apply (uniqueByName_last_row example_rows
           {| item := {| name := "A"; image := Some "a2.png"%string |};
              id := "A"; score := 0 |}).
  assert (uniqueByName example_rows
          = [ {| item := {| name := "A"; image := Some "a2.png"%string |};
                 id := "A"; score := 0 |};
              {| item := {| name := "B"; image := None |}; id := "B"; score := 0 |} ])
    as -> by (vm_compute; reflexivity).
  left.
Defined.

Lemma provider_states_witness :
  ∃ state,
    useReducer [(example_env, PROFILE_ADD "letters" example_rows)] = Return state
    ∧ getProgress state = Return 0
    ∧ getTotalComparisons state = Return 2.
Proof.
  eexists. split; [reflexivity |].
  destruct (provider_states [(example_env, PROFILE_ADD "letters" example_rows)] _ eq_refl)
    as (_ & Htotals & _).
  apply (Htotals (new_profile example_env "letters" example_rows)).
  reflexivity.
Defined.

End ProfileContextFacts.

(** ** Facts about the reducers of the profile store *)

Module ReducersFacts.
Import Reducers.

(** *** What the reducer returns on a state with a current profile *)

Section with_current_profile.
Variables (now : Z) (h : Heap) (state : ProfileState) (cp : string) (p : ProfileItem).
Hypothesis current : currentProfile state = Some cp.
Hypothesis profile : profiles state !! cp = Some p.

Lemma reducer_PAIR_VOTE pairIndex winner :
  reducer now h state (PAIR_VOTE pairIndex winner)
  = Return (h, {|
      currentProfile := Some cp;
      profiles :=
        spread2 (profiles state)
          (assign cp
             {| name := name p;
                list_ := listReducer (list_ p) (PAIR_VOTE pairIndex winner) winner;
                dateTime := now;
                pairs := Array_splice1 pairIndex (pairs p);
                totalComparisons := totalComparisons p |} ∅) |}).
Proof.
  unfold reducer. rewrite current. simpl.
  rewrite (truthy_at_own _ _ _ profile). simpl. by rewrite profile.
Qed.

Lemma reducer_PAIR_SKIP pairIndex r :
  Array_get (pairs p) pairIndex = Some r →
  reducer now h state (PAIR_SKIP pairIndex)
  = Return (skip_pair h r, {|
      currentProfile := Some cp;
      profiles :=
        spread2 (profiles state)
          (assign cp
             {| name := name p;
                list_ := list_ p;
                dateTime := now;
                pairs := pairs p;
                totalComparisons := totalComparisons p |} ∅) |}).
Proof.
  intros Hr. unfold reducer. rewrite current. simpl.
  rewrite (truthy_at_own _ _ _ profile). simpl. rewrite profile. simpl.
  by rewrite Hr.
Qed.

Lemma reducer_PAIR_SKIP_undefined pairIndex :
  Array_get (pairs p) pairIndex = None →
  reducer now h state (PAIR_SKIP pairIndex) = Throw TypeError.
Proof.
  intros Hr. unfold reducer. rewrite current. simpl.
  rewrite (truthy_at_own _ _ _ profile). simpl. rewrite profile. simpl.
  by rewrite Hr.
Qed.

Lemma reducer_LIST_RESET_ROWS nameMap pairList :
  reducer now h state (LIST_RESET_ROWS nameMap pairList)
  = Return (h, {|
      currentProfile := Some cp;
      profiles :=
        spread2 (profiles state)
          (assign cp
             {| name := name p;
                list_ := spread2 (list_ p) nameMap;
                dateTime := now;
                pairs := dedupe_pairs h (pairs p ++ pairList);
                totalComparisons := totalComparisons p |} ∅) |}).
Proof.
  unfold reducer. rewrite current. simpl.
  rewrite (truthy_at_own _ _ _ profile). simpl. by rewrite profile.
Qed.

End with_current_profile.

Lemma Array_get_Some {A} (l : list A) i x :
  Array_get l i = Some x ↔ (0 ≤ i)%Z ∧ l !! Z.to_nat i = Some x.
Proof.
  unfold Array_get. destruct (Z.ltb_spec i 0); split.
  - done.
  - intros [? _]. lia.
  - intros ?. split; [lia | done].
  - by intros [_ ?].
Qed.

(** Claim C7, as amended. On a state with a current profile, skipping a
    pending pair returns a state in which the pending queue of the profile is
    the same array of the same pair objects (same length, same members, the
    skipped pair still in it), the candidate mapping and so every score are
    the same, and every other profile is the same; of the pair objects only
    the skipped one changes, and of it only [skipped], which becomes the
    double nearest to one more: it grows by exactly 1 when it is an integer
    from -2^53 to 2^53 - 1. *)
Theorem skip_only_counts now h state cp p pairIndex r :
  currentProfile state = Some cp →
  profiles state !! cp = Some p →
  (0 ≤ pairIndex)%Z →
  pairs p !! Z.to_nat pairIndex = Some r →
  ∃ state' p',
    reducer now h state (PAIR_SKIP pairIndex) = Return (skip_pair h r, state')
    ∧ currentProfile state' = Some cp
    ∧ profiles state' !! cp = Some p'
    ∧ pairs p' = pairs p
    ∧ r ∈ pairs p'
    ∧ list_ p' = list_ p
    ∧ totalComparisons p' = totalComparisons p
    ∧ (∀ k, k ≠ cp → profiles state' !! k = profiles state !! k)
    ∧ skip_pair h r r
      = {| id := id (h r); leftId := leftId (h r); rightId := rightId (h r);
           skipped := double_of (skipped (h r) + 1) |}
    ∧ ((- 2 ^ 53 ≤ skipped (h r) < 2 ^ 53)%Z →
       skipped (skip_pair h r r) = (skipped (h r) + 1)%Z)
    ∧ (∀ r', r' ≠ r → skip_pair h r r' = h r').
Proof.
  intros Hcur Hp Hi Hr.
  eexists _, _. split.
  { apply (reducer_PAIR_SKIP now h state cp p Hcur Hp).
    by apply Array_get_Some. }
  simpl. split; [done |]. split; [by apply spread_assign_lookup_own |].
  assert (r ∈ pairs p) by (by eapply list_elem_of_lookup_2).
  split_and!.
  - by case_decide.
  - by case_decide.
  - by case_decide.
  - by case_decide.
  - intros k Hk. by apply spread_assign_lookup_ne.
  - unfold skip_pair. by rewrite decide_True.
  - intros Hsafe. unfold skip_pair. rewrite decide_True by done. cbn [skipped].
    apply double_of_exact. lia.
  - intros r' Hr'. unfold skip_pair. by rewrite decide_False.
Qed.

(** *** Votes *)

Lemma Array_splice1_valid {A} (l : list A) i x :
  (0 ≤ i)%Z → l !! Z.to_nat i = Some x →
  Array_splice1 i l = delete (Z.to_nat i) l
  ∧ S (length (Array_splice1 i l)) = length l.
Proof.
  intros Hi Hx. pose proof (lookup_lt_Some _ _ _ Hx) as Hlt.
  assert (Array_splice1 i l = delete (Z.to_nat i) l) as ->.
  { unfold Array_splice1. destruct (Z.ltb_spec i 0); [lia |].
    f_equal. lia. }
  split; [done |]. rewrite length_delete by eauto. lia.
Qed.



Lemma add_number_swap y a b :
  add_number (add_number y a) b = add_number (add_number y b) a.
Proof. destruct y, a, b; simpl; try done. f_equal. lia. Qed.

Lemma total_score_insert (m : gmap string ComparisonCandidate) k c :
  m !! k = None →
  total_score (<[k:=c]> m) = add_number (total_score m) (score c).
Proof.
  intros H. unfold total_score.
  rewrite map_fold_insert_L; [done | | done].
  intros. apply add_number_swap.
Qed.

Lemma total_score_update (m : gmap string ComparisonCandidate) k c t :
  m !! k = Some c → total_score m = Num t →
  ∃ z, score c = Num z
       ∧ total_score (<[k := scored c (Num (z + 1))]> m) = Num (t + 1).
Proof.
  intros Hk Ht.
  rewrite <- (insert_delete_id m k c Hk) in Ht.
  rewrite total_score_insert in Ht by apply lookup_delete_eq.
  destruct (total_score (delete k m)) as [t0|] eqn:Ht0; [| done].
  destruct (score c) as [z|] eqn:Hz; [| done].
  exists z. split; [done |].
  rewrite <- insert_delete_eq.
  rewrite total_score_insert by apply lookup_delete_eq.
  rewrite Ht0. simpl in *. f_equal. injection Ht as <-. lia.
Qed.

Lemma total_score_zero (m : gmap string ComparisonCandidate) :
  (∀ k c, m !! k = Some c → score c = Num 0) → total_score m = Num 0.
Proof.
  induction m as [|k c m Hk IH] using map_ind; intros Hall; [done |].
  rewrite total_score_insert by done.
  rewrite (Hall k c) by apply lookup_insert_eq.
  rewrite IH; [done |].
  intros k' c' Hc'. apply (Hall k').
  rewrite lookup_insert_ne; [done |]. intros ->. congruence.
Qed.

(** Scores that count votes have a sum that is not negative, and none is
    above the sum. *)
Lemma counting_scores_total (m : gmap string ComparisonCandidate) :
  counting_scores m → ∃ t, total_score m = Num t ∧ (0 ≤ t)%Z.
Proof.
  induction m as [|k c m Hk IH] using map_ind; intros Hall.
  - exists 0%Z. done.
  - rewrite total_score_insert by done.
    destruct (Hall k c) as (z & Hz & Hz0); [apply lookup_insert_eq |].
    destruct IH as (t & Ht & Ht0).
    { intros k' c' Hc'. apply (Hall k').
      rewrite lookup_insert_ne; [done |]. intros ->. congruence. }
    exists (t + z)%Z. rewrite Ht, Hz. split; [done | lia].
Qed.

Lemma counting_scores_delete (m : gmap string ComparisonCandidate) k :
  counting_scores m → counting_scores (delete k m).
Proof. intros Hall k' c' [_ Hc']%lookup_delete_Some. by eapply Hall. Qed.

Lemma counting_scores_le (m : gmap string ComparisonCandidate) k c z t :
  counting_scores m → total_score m = Num t →
  m !! k = Some c → score c = Num z → (0 ≤ z ≤ t)%Z.
Proof.
  intros Hall Ht Hk Hz.
  destruct (Hall k c Hk) as (z' & Hz' & Hz0). rewrite Hz in Hz'.
  injection Hz' as <-.
  rewrite <- (insert_delete_id m k c Hk) in Ht.
  rewrite total_score_insert in Ht by apply lookup_delete_eq.
  destruct (counting_scores_total (delete k m)) as (t0 & Ht0 & Ht00);
    [by apply counting_scores_delete |].
  rewrite Ht0, Hz in Ht. injection Ht as <-. lia.
Qed.

Lemma counting_scores_insert (m : gmap string ComparisonCandidate) k c z :
  counting_scores m → (0 ≤ z)%Z → counting_scores (<[k := scored c (Num z)]> m).
Proof.
  intros Hall Hz k' c'. rewrite lookup_insert. case_decide.
  - intros [= <-]. by exists z.
  - apply Hall.
Qed.

Lemma plain_key {V} (m : gmap string V) k v :
  plain_map m → m !! k = Some v → k ≠ "__proto__"%string.
Proof. unfold plain_map. intros H Hk ->. congruence. Qed.

(** One vote with a valid index and a winner that is a candidate, on a
    profile and for a winner whose keys are not ["__proto__"]. *)
Lemma vote_step_own now h state cp p pairIndex r winner c :
  cp ≠ "__proto__"%string →
  winner ≠ "__proto__"%string →
  currentProfile state = Some cp →
  profiles state !! cp = Some p →
  (0 ≤ pairIndex)%Z →
  pairs p !! Z.to_nat pairIndex = Some r →
  list_ p !! winner = Some c →
  ∃ state' p',
    reducer now h state (PAIR_VOTE pairIndex winner) = Return (h, state')
    ∧ profiles state' = <[cp := p']> (profiles state)
    ∧ currentProfile state' = Some cp
    ∧ profiles state' !! cp = Some p'
    ∧ (∀ k, k ≠ cp → profiles state' !! k = profiles state !! k)
    ∧ pairs p' = delete (Z.to_nat pairIndex) (pairs p)
    ∧ S (length (pairs p')) = length (pairs p)
    ∧ totalComparisons p' = totalComparisons p
    ∧ list_ p' = <[winner := scored c (increment (Some (score c)))]> (list_ p).
Proof.
  intros Hcp Hw Hcur Hp Hi Hr Hc.
  destruct (Array_splice1_valid _ _ _ Hi Hr) as [Hdel Hlen].
  eexists _, _. split; [by apply reducer_PAIR_VOTE |].
  cbn [currentProfile profiles]. rewrite spread_assign_insert by done.
  split_and!.
  - done.
  - done.
  - apply lookup_insert_eq.
  - intros k Hk. by apply lookup_insert_ne.
  - done.
  - done.
  - done.
  - cbn [list_ listReducer]. rewrite Hc.
    by rewrite spread_assign_insert.
Qed.

(** One valid vote on a plain state. *)
Lemma vote_step now h state cp p pairIndex r winner c :
  plain_state state →
  currentProfile state = Some cp →
  profiles state !! cp = Some p →
  (0 ≤ pairIndex)%Z →
  pairs p !! Z.to_nat pairIndex = Some r →
  list_ p !! winner = Some c →
  ∃ state' p',
    reducer now h state (PAIR_VOTE pairIndex winner) = Return (h, state')
    ∧ plain_state state'
    ∧ currentProfile state' = Some cp
    ∧ profiles state' !! cp = Some p'
    ∧ (∀ k, k ≠ cp → profiles state' !! k = profiles state !! k)
    ∧ pairs p' = delete (Z.to_nat pairIndex) (pairs p)
    ∧ S (length (pairs p')) = length (pairs p)
    ∧ totalComparisons p' = totalComparisons p
    ∧ list_ p' = <[winner := scored c (increment (Some (score c)))]> (list_ p).
Proof.
  intros [Hplain Hlists] Hcur Hp Hi Hr Hc.
  pose proof (plain_key _ _ _ Hplain Hp) as Hcp.
  pose proof (plain_key _ _ _ (Hlists _ _ Hp) Hc) as Hw.
  destruct (vote_step_own now h state cp p pairIndex r winner c)
    as (s' & p' & Hred & Hprofiles & Hcur' & Hp' & Hothers & Hpairs & Hlen
        & Htot & Hlist); try done.
  exists s', p'. split_and!; try done.
  split.
  - unfold plain_map. rewrite Hprofiles. by rewrite lookup_insert_ne.
  - intros k q. rewrite Hprofiles, lookup_insert. case_decide as Hk.
    + intros [= <-]. rewrite Hlist. unfold plain_map.
      rewrite lookup_insert_ne by done. by eapply Hlists.
    + apply Hlists.
Qed.

(** Valid votes on scores that count votes: each adds 1 to the sum, as long
    as the sum stays within 2^53. *)
Lemma votes_total h state k state' cp p t :
  votes h state k state' →
  cp ≠ "__proto__"%string →
  currentProfile state = Some cp →
  profiles state !! cp = Some p →
  plain_map (list_ p) →
  counting_scores (list_ p) →
  total_score (list_ p) = Num t →
  (t + Z.of_nat k ≤ 2 ^ 53)%Z →
  ∃ p',
    currentProfile state' = Some cp
    ∧ profiles state' !! cp = Some p'
    ∧ plain_map (list_ p')
    ∧ counting_scores (list_ p')
    ∧ total_score (list_ p') = Num (t + Z.of_nat k)
    ∧ length (pairs p') + k = length (pairs p).
Proof.
  intros Hvotes Hcp Hcur Hp Hplain Hcount Ht.
  induction Hvotes as [s|s k s1 now i w s2 Hvotes IH Hvalid Hstep]; intros Hbound.
  - exists p. split_and!; [done | done | done | done | | lia].
    rewrite Ht. f_equal. lia.
  - destruct (IH Hcur Hp)
      as (p1 & Hcur1 & Hp1 & Hplain1 & Hcount1 & Ht1 & Hlen1); [lia |].
    destruct Hvalid as (cp' & q & r & c & Hcur' & Hq & Hi & Hr & _ & Hc).
    assert (cp' = cp) as -> by congruence.
    assert (q = p1) as -> by congruence.
    pose proof (plain_key _ _ _ Hplain1 Hc) as Hw.
    destruct (vote_step_own now h s1 cp p1 i r w c) as
      (s2' & p2 & Hred & _ & Hcur2 & Hp2 & _ & _ & Hlen2 & _ & Hlist2);
      try done.
    rewrite Hred in Hstep. injection Hstep as <-.
    destruct (total_score_update _ _ _ _ Hc Ht1) as (z & Hz & Htot).
    pose proof (counting_scores_le _ _ _ _ _ Hcount1 Ht1 Hc Hz) as Hzt.
    assert (list_ p2 = <[w := scored c (Num (z + 1))]> (list_ p1)) as Hlist.
    { rewrite Hlist2, Hz, increment_exact; [done | lia]. }
    exists p2. split_and!; try done.
    + rewrite Hlist. unfold plain_map. by rewrite lookup_insert_ne.
    + rewrite Hlist. apply counting_scores_insert; [done | lia].
    + rewrite Hlist, Htot. f_equal. lia.
    + lia.
Qed.

(** Claim C6, as amended. On a state with a current profile, a vote for a
    pending pair (a valid [pairIndex]) whose winner is a side of that pair and
    a key of the candidate mapping, the keys of the profile and of the winner
    not being ["__proto__"], returns a state in which the pending queue of
    the profile is the queue without that one pair (one shorter), the winner
    has its record with the score incremented and every other candidate is
    unchanged, as are [totalComparisons] and the other profiles. The
    incremented score is the score plus exactly 1 when the score is an
    integer from -2^53 to 2^53 - 1; a score that is [NaN] stays [NaN]. Hence
    k such votes, k up to 2^53, after the creation of a profile whose
    candidates all have score 0, under an id that is not ["__proto__"] and
    with a candidate mapping that is plain, leave the scores with sum k. *)
Theorem vote_counts_once :
  (∀ now h state cp p pairIndex r winner c,
     cp ≠ "__proto__"%string →
     winner ≠ "__proto__"%string →
     currentProfile state = Some cp →
     profiles state !! cp = Some p →
     (0 ≤ pairIndex)%Z →
     pairs p !! Z.to_nat pairIndex = Some r →
     winner = leftId (h r) ∨ winner = rightId (h r) →
     list_ p !! winner = Some c →
     ∃ state' p',
       reducer now h state (PAIR_VOTE pairIndex winner) = Return (h, state')
       ∧ currentProfile state' = Some cp
       ∧ profiles state' !! cp = Some p'
       ∧ (∀ k, k ≠ cp → profiles state' !! k = profiles state !! k)
       ∧ pairs p' = delete (Z.to_nat pairIndex) (pairs p)
       ∧ S (length (pairs p')) = length (pairs p)
       ∧ totalComparisons p' = totalComparisons p
       ∧ list_ p' !! winner = Some (scored c (increment (Some (score c))))
       ∧ (∀ z, score c = Num z → (- 2 ^ 53 ≤ z < 2 ^ 53)%Z →
            list_ p' !! winner = Some (scored c (Num (z + 1))))
       ∧ (score c = NaN → list_ p' !! winner = Some (scored c NaN))
       ∧ (∀ k, k ≠ winner → list_ p' !! k = list_ p !! k))
  ∧ (∀ now h state newProfileId name nameMap pairList k state',
       plain_map nameMap →
       newProfileId ≠ "__proto__"%string →
       (∀ i c, nameMap !! i = Some c → score c = Num 0) →
       (Z.of_nat k ≤ 2 ^ 53)%Z →
       ∃ created,
         reducer now h state (PROFILE_ADD newProfileId name nameMap pairList)
           = Return (h, created)
         ∧ (votes h created k state' →
            ∃ p', currentProfile state' = Some newProfileId
                  ∧ profiles state' !! newProfileId = Some p'
                  ∧ total_score (list_ p') = Num (Z.of_nat k)
                  ∧ length (pairs p') + k = length pairList)).
Proof.
  split.
  - intros now h state cp p i r w c Hcp Hw Hcur Hp Hi Hr _ Hc.
    destruct (vote_step_own now h state cp p i r w c) as
      (s' & p' & Hred & _ & Hcur' & Hp' & Hothers & Hpairs & Hlen & Htot & Hlist);
      try done.
    exists s', p'. split_and!; try done.
    + rewrite Hlist. apply lookup_insert_eq.
    + intros z Hz Hsafe. rewrite Hlist, Hz, increment_exact by done.
      apply lookup_insert_eq.
    + intros Hnan. rewrite Hlist, Hnan. apply lookup_insert_eq.
    + intros k Hk. rewrite Hlist. by apply lookup_insert_ne.
  - intros now h state newId nm nameMap pairList k state' HnameMap Hne Hzero Hk.
    eexists. split; [done |]. intros Hvotes.
    edestruct (votes_total h _ k state' newId
                 {| name := nm; list_ := nameMap; dateTime := now;
                    pairs := pairList;
                    totalComparisons := Z.of_nat (length pairList) |} 0 Hvotes)
      as (p' & Hcur' & Hp' & _ & _ & Htot & Hlen); last first.
    + exists p'. split_and!; [done | done | | exact Hlen].
      by rewrite Htot.
    + lia.
    + by apply total_score_zero.
    + intros i c Hc. exists 0%Z. split; [by eapply Hzero | done].
    + done.
    + cbn [profiles]. by apply spread_assign_lookup_eq.
    + done.
    + done.
Qed.

(** *** The pairs that [LIST_RESET_ROWS] keeps *)

Section first_index.
Context {A : Type} (f : A → bool).

Lemma findIndex_from_skip (pre l : list A) i :
  Forall (λ y, f y = false) pre →
  findIndex_from f (pre ++ l) i = findIndex_from f l (i + Z.of_nat (length pre)).
Proof.
  intros Hpre. revert i.
  induction Hpre as [|y pre Hy _ IH]; intros i; simpl.
  - f_equal. lia.
  - rewrite Hy, IH. f_equal. lia.
Qed.

Lemma findIndex_from_early (pre l : list A) i :
  Exists (λ y, f y = true) pre →
  (i ≤ findIndex_from f (pre ++ l) i < i + Z.of_nat (length pre))%Z.
Proof.
  intros Hpre. revert i.
  induction pre as [|y pre IH]; intros i; [by apply Exists_nil in Hpre |].
  simpl. destruct (f y) eqn:Hy; [lia |].
  apply Exists_cons in Hpre as [?|Hpre]; [congruence |].
  specialize (IH Hpre (i + 1)%Z). lia.
Qed.

Lemma findIndex_first (pre l : list A) x :
  f x = true →
  Array_findIndex f (pre ++ x :: l) = Z.of_nat (length pre)
  ↔ Forall (λ y, f y = false) pre.
Proof.
  intros Hx. unfold Array_findIndex. split.
  - intros Hi. apply Forall_forall. intros y Hy.
    destruct (f y) eqn:Hfy; [| done].
    assert (Exists (λ y, f y = true) pre) as He
      by (apply Exists_exists; eauto).
    pose proof (findIndex_from_early pre (x :: l) 0 He). lia.
  - intros Hpre. rewrite findIndex_from_skip by done. simpl. by rewrite Hx.
Qed.

End first_index.

Lemma same_id_false h (pre : list ref) r :
  Forall (λ y, String.eqb (id (h y)) (id (h r)) = false) pre
  ↔ id (h r) ∉ pair_ids h pre.
Proof.
  unfold pair_ids. rewrite Forall_forall, list_elem_of_fmap. split.
  - intros H (y & Hid & Hy). specialize (H y Hy).
    apply String.eqb_neq in H. congruence.
  - intros H y Hy. apply String.eqb_neq. intros Hid. apply H. eauto.
Qed.

Lemma dedupe_pairs_from h (whole pre l : list ref) :
  whole = pre ++ l →
  filter_from
    (λ pair index,
       (Array_findIndex (λ pairCheck, String.eqb (id (h pairCheck)) (id (h pair))) whole
        =? index)%Z)
    l (Z.of_nat (length pre))
  = keep_first_ids h (pair_ids h pre) l.
Proof.
  revert pre. induction l as [|r l IH]; intros pre Hwhole; [done |].
  cbn [filter_from keep_first_ids].
  replace (Z.of_nat (length pre) + 1)%Z with (Z.of_nat (length (pre ++ [r])))
    by (rewrite length_app; simpl; lia).
  rewrite (IH (pre ++ [r])) by (by rewrite <- app_assoc).
  assert (pair_ids h (pre ++ [r]) = pair_ids h pre ++ [id (h r)]) as ->
    by (unfold pair_ids; by rewrite fmap_app).
  pose proof (findIndex_first
    (λ pairCheck, String.eqb (id (h pairCheck)) (id (h r))) pre l r
    (String.eqb_refl _)) as Hfirst.
  rewrite <- Hwhole, same_id_false in Hfirst.
  destruct (decide (id (h r) ∈ pair_ids h pre)) as [Hin|Hnin].
  - destruct (Z.eqb_spec
      (Array_findIndex (λ pairCheck, String.eqb (id (h pairCheck)) (id (h r))) whole)
      (Z.of_nat (length pre))) as [Heq|Hne].
    + apply Hfirst in Heq. done.
    + done.
  - apply Hfirst in Hnin. rewrite Hnin, Z.eqb_refl. done.
Qed.

Lemma dedupe_pairs_keep_first h (l : list ref) :
  dedupe_pairs h l = keep_first_ids h [] l.
Proof. apply (dedupe_pairs_from h l [] l). done. Qed.

Lemma keep_first_ids_app h seen l1 l2 :
  keep_first_ids h seen (l1 ++ l2)
  = keep_first_ids h seen l1 ++ keep_first_ids h (seen ++ pair_ids h l1) l2.
Proof.
  revert seen. induction l1 as [|r l1 IH]; intros seen; simpl.
  - by rewrite app_nil_r.
  - rewrite IH, <- !app_assoc. done.
Qed.

Lemma keep_first_ids_elem h seen l r :
  r ∈ keep_first_ids h seen l → r ∈ l ∧ id (h r) ∉ seen.
Proof.
  revert seen. induction l as [|x l IH]; intros seen; simpl.
  - by intros ?%elem_of_nil.
  - intros [Hr|Hr]%elem_of_app.
    + case_decide; [by apply elem_of_nil in Hr |].
      apply list_elem_of_singleton in Hr as ->. split; [left | done].
    + apply IH in Hr as [? Hnot]. split; [by right |].
      intros ?. apply Hnot. apply elem_of_app. by left.
Qed.

Lemma keep_first_ids_NoDup h seen l :
  NoDup (pair_ids h (keep_first_ids h seen l)).
Proof.
  revert seen. induction l as [|x l IH]; intros seen; simpl.
  - apply NoDup_nil_2.
  - unfold pair_ids. rewrite fmap_app. apply NoDup_app. split_and!.
    + case_decide; [apply NoDup_nil_2 | apply NoDup_singleton].
    + intros i Hi Hi'. case_decide; [by apply elem_of_nil in Hi |].
      apply list_elem_of_singleton in Hi as ->.
      apply list_elem_of_fmap in Hi' as (r & Hid & Hr).
      apply keep_first_ids_elem in Hr as [_ Hnot].
      apply Hnot. rewrite <- Hid. apply elem_of_app. right. left.
    + apply IH.
Qed.

Lemma keep_first_ids_seen h seen l :
  pair_ids h l ⊆ seen → keep_first_ids h seen l = [].
Proof.
  revert seen. induction l as [|x l IH]; intros seen Hsub; [done |].
  simpl. rewrite decide_True by (apply Hsub; left).
  apply IH. intros i Hi. apply elem_of_app. left. apply Hsub. by right.
Qed.

Lemma keep_first_ids_all h seen l :
  NoDup (pair_ids h l) → (∀ i, i ∈ pair_ids h l → i ∉ seen) →
  keep_first_ids h seen l = l.
Proof.
  revert seen. induction l as [|x l IH]; intros seen Hnd Hnew; [done |].
  simpl in *. apply NoDup_cons in Hnd as [Hx Hnd].
  rewrite decide_False by (apply Hnew; left). simpl. f_equal.
  apply IH; [done |]. intros i Hi [Hs|Hs]%elem_of_app.
  - apply (Hnew i); [by right | done].
  - apply list_elem_of_singleton in Hs as ->. done.
Qed.

Lemma keep_first_ids_covers h seen l i :
  i ∈ pair_ids h l → i ∈ seen ∨ i ∈ pair_ids h (keep_first_ids h seen l).
Proof.
  revert seen. induction l as [|x l IH]; intros seen; [by intros ?%elem_of_nil |].
  simpl. intros [->|Hi]%elem_of_cons.
  - case_decide; [by left | right]. simpl. left.
  - destruct (IH (seen ++ [id (h x)]) Hi) as [[?| ->%list_elem_of_singleton]%elem_of_app|?].
    + by left.
    + case_decide; [by left | right; simpl; left].
    + right. unfold pair_ids. rewrite fmap_app. apply elem_of_app. by right.
Qed.

(** Resetting rows again with pairs whose ids the first reset has seen. *)
Lemma dedupe_pairs_again h (pending pairList pairList2 : list ref) :
  pair_ids h pairList2 ⊆ pair_ids h (pending ++ pairList) →
  dedupe_pairs h (dedupe_pairs h (pending ++ pairList) ++ pairList2)
  = dedupe_pairs h (pending ++ pairList).
Proof.
  intros Hsub. rewrite !dedupe_pairs_keep_first.
  set (kept := keep_first_ids h [] (pending ++ pairList)).
  rewrite keep_first_ids_app. simpl.
  rewrite (keep_first_ids_all h [] kept).
  - rewrite keep_first_ids_seen; [by rewrite app_nil_r |].
    intros i Hi. apply Hsub in Hi.
    apply (keep_first_ids_covers h []) in Hi as [?%elem_of_nil|?]; done.
  - apply keep_first_ids_NoDup.
  - intros i _. apply not_elem_of_nil.
Qed.

(** *** Resetting rows *)

(** Claim C3, as amended. On a state with a current profile, resetting rows
    never adds a pair whose id a pending pair has: every pair of the new
    queue is a pair of the old queue, or a pair of the action whose id no
    pending pair had. Unless the key of the profile is ["__proto__"], the new
    queue is the old queue followed by the pairs of the action, each id kept
    at its first place only. Resetting rows a second time, with the same
    pairs or with any pairs whose ids the first reset has seen, leaves the
    pending queue as the first reset made it. (Pairs that were voted are in no
    array of the state: the reducer does not compare with them.) *)
Theorem reset_rows_adds_new_ids now1 now2 h state cp p
    nameMap pairList nameMap2 pairList2 :
  currentProfile state = Some cp →
  profiles state !! cp = Some p →
  pair_ids h pairList2 ⊆ pair_ids h (pairs p ++ pairList) →
  ∃ state1 p1 state2 p2,
    reducer now1 h state (LIST_RESET_ROWS nameMap pairList) = Return (h, state1)
    ∧ currentProfile state1 = Some cp
    ∧ profiles state1 !! cp = Some p1
    ∧ (∀ r, r ∈ pairs p1 →
         r ∈ pairs p ∨ (r ∈ pairList ∧ id (h r) ∉ pair_ids h (pairs p)))
    ∧ (cp ≠ "__proto__"%string →
         pairs p1 = keep_first_ids h [] (pairs p ++ pairList)
         ∧ NoDup (pair_ids h (pairs p1)))
    ∧ reducer now2 h state1 (LIST_RESET_ROWS nameMap2 pairList2) = Return (h, state2)
    ∧ currentProfile state2 = Some cp
    ∧ profiles state2 !! cp = Some p2
    ∧ pairs p2 = pairs p1.
Proof.
  intros Hcur Hp Hsub.
  eexists _, _, _, _.
  split; [by apply reducer_LIST_RESET_ROWS |].
  split; [done |].
  split; [by apply spread_assign_lookup_own |].
  match goal with
  | |- context [if decide _ then p else ?q] => set (p1 := q)
  end.
  assert (pairs p1 = keep_first_ids h [] (pairs p)
                     ++ keep_first_ids h (pair_ids h (pairs p)) pairList) as Hp1.
  { subst p1. cbn [pairs]. by rewrite dedupe_pairs_keep_first, keep_first_ids_app. }
  split.
  { intros r Hr. case_decide; [by left |].
    rewrite Hp1 in Hr. apply elem_of_app in Hr as [Hr|Hr].
    - left. by apply keep_first_ids_elem in Hr as [? _].
    - right. by apply keep_first_ids_elem in Hr. }
  split.
  { intros Hne. rewrite decide_False by done. split.
    - subst p1. cbn [pairs]. by rewrite dedupe_pairs_keep_first.
    - subst p1. cbn [pairs]. rewrite dedupe_pairs_keep_first.
      apply keep_first_ids_NoDup. }
  split.
  { apply reducer_LIST_RESET_ROWS; [done |]. by apply spread_assign_lookup_own. }
  split; [done |].
  split.
  { cbn [profiles]. apply spread_assign_lookup_own. by apply spread_assign_lookup_own. }
  destruct (decide (cp = "__proto__"%string)) as [Hproto|Hne]; [done |].
  subst p1. cbn [pairs]. by apply dedupe_pairs_again.
Qed.

(** Claim C9, as amended. On a state with a current profile, resetting rows
    leaves every candidate whose id the merged mapping does not have as it
    was; unless the key of the profile is ["__proto__"], an id that the merged
    mapping has gets the merged record, score included, whether the id was
    present or not. *)
Theorem reset_rows_merges_candidates now h state cp p nameMap pairList :
  currentProfile state = Some cp →
  profiles state !! cp = Some p →
  ∃ state' p',
    reducer now h state (LIST_RESET_ROWS nameMap pairList) = Return (h, state')
    ∧ profiles state' !! cp = Some p'
    ∧ (∀ k, nameMap !! k = None → list_ p' !! k = list_ p !! k)
    ∧ (cp ≠ "__proto__"%string →
         ∀ k c, nameMap !! k = Some c → list_ p' !! k = Some c).
Proof.
  intros Hcur Hp.
  eexists _, _.
  split; [by apply reducer_LIST_RESET_ROWS |].
  split; [by apply spread_assign_lookup_own |].
  split.
  - intros k Hk. case_decide; [done |].
    cbn [list_]. unfold spread2. by rewrite lookup_union_r.
  - intros Hne k c Hk. rewrite decide_False by done.
    cbn [list_]. unfold spread2. by apply lookup_union_Some_l.
Qed.

(** Claim C2, as amended. On a state with a current profile, resetting rows
    returns a state in which the [totalComparisons] of the profile is what it
    was: the action never writes it, whatever pairs it appends to the queue. *)
Theorem reset_rows_totalComparisons now h state cp p nameMap pairList :
  currentProfile state = Some cp →
  profiles state !! cp = Some p →
  ∃ state' p',
    reducer now h state (LIST_RESET_ROWS nameMap pairList) = Return (h, state')
    ∧ currentProfile state' = Some cp
    ∧ profiles state' !! cp = Some p'
    ∧ totalComparisons p' = totalComparisons p.
Proof.
  intros Hcur Hp.
  eexists _, _.
  split; [by apply reducer_LIST_RESET_ROWS |].
  split; [done |].
  split; [by apply spread_assign_lookup_own |].
  by case_decide.
Qed.

(** *** Votes that the voting engine would reject *)


(** *** What every action keeps *)

(** The cases in which [reducer] returns: [Hred] becomes the returned state
    in the goal, with the profile and the pair that the action has read. *)
Ltac reducer_returns Hred :=
  cbn [reducer] in Hred;
  try (match type of Hred with
       | context [truthy_at ?m ?k] =>
           destruct (truthy_at m k) eqn:?; [| discriminate Hred]
       end);
  cbn in Hred;
  try (match type of Hred with
       | context [profiles ?s !! ?k] =>
           destruct (profiles s !! k) as [?p|] eqn:?; [| discriminate Hred];
           cbn in Hred
       end);
  try (match type of Hred with
       | context [Array_get ?l ?i] =>
           destruct (Array_get l i) as [?r|] eqn:?; [| discriminate Hred];
           cbn in Hred
       end);
  injection Hred as ? <-.

Lemma empty_state_plain : plain_state empty_state.
Proof. split; [done |]. intros k p. cbn. by rewrite lookup_empty. Qed.

(** The states that the reducer makes from plain states and plain actions
    are plain. *)
Lemma reducer_plain now h state action h' state' :
  plain_state state → plain_action action →
  reducer now h state action = Return (h', state') →
  plain_state state'.
Proof.
  intros [Hplain Hlists] Haction Hred.
  assert (∀ k v (m' : gmap string ProfileItem),
    plain_map (list_ v) → m' = spread2 (profiles state) (assign k v ∅) →
    plain_map m' ∧ ∀ j q, m' !! j = Some q → plain_map (list_ q)) as Hwrite.
  { intros k v m' Hv ->. split; [by apply spread_assign_plain |].
    intros j q [->|Hq]%spread_assign_lookup_Some; [done | by eapply Hlists]. }
  destruct action; reducer_returns Hred;
    try (by split); (eapply Hwrite; [| done]); cbn [list_].
  - exact Haction.
  - apply spread2_plain; [by eapply Hlists | exact Haction].
  - by eapply Hlists.
  - apply spread_assign_plain. by eapply Hlists.
Qed.

(** The invariant of the root state is kept by every action, apart from
    [PROFILE_SET_CURRENT] with a name of [Object.prototype] and [PROFILE_ADD]
    with the key ["__proto__"]. *)
Lemma reducer_current_is_profile now h state action h' state' :
  current_is_profile state →
  (∀ id, action = PROFILE_SET_CURRENT id → inherited id = false) →
  (∀ newId nm nameMap pairList,
     action = PROFILE_ADD newId nm nameMap pairList → newId ≠ "__proto__"%string) →
  reducer now h state action = Return (h', state') →
  current_is_profile state'.
Proof.
  intros Hinv Hset Hadd Hred. unfold current_is_profile in *.
  destruct action; reducer_returns Hred; cbn;
    try (destruct (currentProfile state); [by apply spread_assign_is_Some | done]).
  - match goal with H : truthy_at _ _ = true |- _ => rename H into Htruthy end.
    unfold truthy_at in Htruthy.
    rewrite (Hset _ eq_refl), orb_false_r in Htruthy.
    by apply bool_decide_eq_true in Htruthy.
  - rewrite spread_assign_lookup_eq; [eauto | by eapply Hadd].
  - done.
Qed.

Lemma Array_splice1_length {A} (l : list A) i :
  length (Array_splice1 i l) ≤ length l.
Proof.
  unfold Array_splice1. generalize (Z.to_nat
    (if (i <? 0)%Z then Z.max (Z.of_nat (length l) + i) 0
     else Z.min i (Z.of_nat (length l)))) as n.
  intros n. revert n. induction l as [|x l IH]; intros [|n]; simpl; try lia.
  specialize (IH n). lia.
Qed.

(** Votes, skips and the selection of a profile never lower the progress of
    a profile. *)
Lemma progress_not_lowered now h state action h' state' k p p' :
  match action with
  | LIST_RESET_ROWS _ _ | PROFILE_ADD _ _ _ _ => False
  | _ => True
  end →
  reducer now h state action = Return (h', state') →
  profiles state !! k = Some p →
  profiles state' !! k = Some p' →
  (progress p ≤ progress p')%Z.
Proof.
  intros Haction Hred Hp Hp'.
  destruct action; try done; reducer_returns Hred; cbn in Hp';
    try (assert (p' = p) as -> by congruence; done);
    apply spread_assign_lookup_cases in Hp' as [[-> ->]|Hp'];
    try (assert (p' = p) as -> by congruence; done);
    match goal with
    | H : profiles state !! property_key _ = Some ?q |- _ =>
        assert (q = p) as -> by congruence
    end;
    unfold progress; cbn [pairs totalComparisons].
  - done.
  - pose proof (Array_splice1_length (pairs p) pairIndex). lia.
Qed.

(** Claim C4, as amended. From one state to the next, the progress of a
    profile, [totalComparisons] minus the length of the pending queue, does
    not decrease when the action is a vote, a skip, the selection of a profile
    or an unknown action. Adding a profile leaves the profiles of the other
    keys as they were. Resetting rows leaves [totalComparisons] as it was, so
    the progress changes by the opposite of the change of the queue length;
    it changes the current profile only, whose new queue is the old queue
    followed by the pairs of the action, each id kept at its first place
    only. So when the pending pairs have distinct ids, the reset appends the
    pairs of the action whose ids are not pending, each id once, and the
    progress decreases by exactly the number of these pairs. (When pending
    pairs share an id the reset also drops the later of them, and the progress
    can rise.) *)
Theorem progress_by_action now h state action h' state' k p p' :
  reducer now h state action = Return (h', state') →
  profiles state !! k = Some p →
  profiles state' !! k = Some p' →
  match action with
  | LIST_RESET_ROWS _ pairList =>
      totalComparisons p' = totalComparisons p
      ∧ (progress p'
         = progress p
           - (Z.of_nat (length (pairs p')) - Z.of_nat (length (pairs p))))%Z
      ∧ (k ≠ property_key (currentProfile state) ∨ k = "__proto__"%string →
         p' = p)
      ∧ (k = property_key (currentProfile state) → k ≠ "__proto__"%string →
         pairs p' = keep_first_ids h [] (pairs p ++ pairList)
         ∧ (NoDup (pair_ids h (pairs p)) →
            let appended := keep_first_ids h (pair_ids h (pairs p)) pairList in
            pairs p' = pairs p ++ appended
            ∧ progress p' = (progress p - Z.of_nat (length appended))%Z))
  | PROFILE_ADD newProfileId _ _ _ => k ≠ newProfileId → p' = p
  | _ => (progress p ≤ progress p')%Z
  end.
Proof.
  intros Hred Hp Hp'.
  destruct action;
    try (match type of Hred with
         | reducer _ _ _ ?a = _ =>
             by apply (progress_not_lowered now h state a h' state' k p p')
         end).
  - reducer_returns Hred. intros Hk. cbn [profiles] in Hp'.
    apply spread_assign_lookup_cases in Hp' as [[-> ->]|Hp']; [done | congruence].
  - reducer_returns Hred. cbn [profiles] in Hp'.
    match goal with
    | H : profiles state !! property_key _ = Some _ |- _ => rename H into Hcur
    end.
    assert (totalComparisons p' = totalComparisons p) as Htotal.
    { apply spread_assign_lookup_cases in Hp' as [[-> ->]|Hp'].
      - cbn [totalComparisons]. congruence.
      - congruence. }
    split; [done |]. split; [unfold progress; lia |]. split.
    + intros [Hne| ->].
      * rewrite spread_assign_lookup_ne in Hp' by done. congruence.
      * destruct (decide (property_key (currentProfile state) = "__proto__"%string))
          as [Hkey|Hkey].
        -- rewrite Hkey, spread_assign_proto in Hp'. congruence.
        -- rewrite spread_assign_lookup_ne in Hp' by done. congruence.
    + intros -> Hne. rewrite spread_assign_lookup_eq in Hp' by done.
      injection Hp' as <-. cbn [pairs].
      assert (p0 = p) as -> by congruence.
      rewrite dedupe_pairs_keep_first. split; [done |].
      intros Hnd. cbn zeta. rewrite keep_first_ids_app. cbn [app].
      rewrite (keep_first_ids_all h [] (pairs p) Hnd)
        by (intros i _; apply not_elem_of_nil).
      split; [done |]. unfold progress. cbn [pairs totalComparisons].
      rewrite length_app. lia.
Qed.

(** *** The claims on the running example *)

(** Claim C3 fails as stated: the pair AB of the example profile is voted
    and leaves the queue; a reset of rows whose pairs include AB puts it in
    the queue again, although it occurred (and was voted) before. *)
Lemma voted_pair_is_added_again :
  let voted := dispatch 1 (Return (example_heap, example_state)) [PAIR_VOTE 0 "A"] in
  let merged := dispatch 1 voted [LIST_RESET_ROWS example_merge [0; 3]] in
  pairs example_profile = [0; 1; 2]
  ∧ pairs <$> current_profile voted = Some [1; 2]
  ∧ pairs <$> current_profile merged = Some [1; 2; 0; 3].
Proof. vm_compute. done. Qed.

(** Claim C9 fails as stated: candidate A has score 2 after the votes; a
    reset of rows whose mapping has an entry for A, with score 0 as the
    normaliser makes it, leaves A with score 0. *)
Lemma reset_rows_overwrites_score :
  let before := Return (example_heap, voted_state) in
  let after := dispatch 1 before [LIST_RESET_ROWS example_merge [3]] in
  current_score before "A" = Some (Num 2)
  ∧ current_score after "A" = Some (Num 0)
  ∧ current_score after "D" = Some (Num 0).
Proof. vm_compute. done. Qed.


(** Claim C2 fails as stated: after the three votes the queue is empty and
    [totalComparisons] is 3; the reset of rows with the candidates A and D
    and the pair AD appends one pair and leaves [totalComparisons] at 3,
    where the claim has 3 + 1. *)
Lemma reset_rows_total_is_stale :
  let before := Return (example_heap, voted_state) in
  let after := dispatch 1 before [LIST_RESET_ROWS example_merge [3]] in
  pairs <$> current_profile before = Some []
  ∧ totalComparisons <$> current_profile before = Some 3%Z
  ∧ pairs <$> current_profile after = Some [3]
  ∧ totalComparisons <$> current_profile after = Some 3%Z
  ∧ totalComparisons <$> current_profile after ≠ Some (3 + 1)%Z.
Proof. vm_compute. split_and!; done. Qed.

(** Claim C4 fails as stated: the same reset of rows takes the progress of
    the profile from 3 down to 2. *)
Lemma reset_rows_lowers_progress :
  let before := Return (example_heap, voted_state) in
  let after := dispatch 1 before [LIST_RESET_ROWS example_merge [3]] in
  progress <$> current_profile before = Some 3%Z
  ∧ progress <$> current_profile after = Some 2%Z.
Proof. vm_compute. done. Qed.

(** Claim C6 fails as stated. A vote for the unknown candidate D and a
    reset of rows with the pair AD lead to a state in which D is a candidate
    with the score NaN and AD is pending: the vote for D at the index of AD is
    valid, it removes the pair, and the score of D is NaN as before, not one
    more. And where the score of A is 2^53, the valid vote for A at the pair
    AB leaves it at 2^53. *)
Lemma vote_leaves_score :
  let reached :=
    dispatch 1 (Return (example_heap, example_state))
      [PAIR_VOTE 7 "D"; LIST_RESET_ROWS ∅ [3]] in
  let after := reducer 1 example_heap unknown_state (PAIR_VOTE 3 "D") in
  let full := reducer 1 example_heap full_state (PAIR_VOTE 0 "A") in
  reached = Return (example_heap, unknown_state)
  ∧ valid_vote example_heap unknown_state 3 "D"
  ∧ current_score reached "D" = Some NaN
  ∧ pairs <$> current_profile after = Some [0; 1; 2]
  ∧ current_score after "D" = Some NaN
  ∧ valid_vote example_heap full_state 0 "A"
  ∧ current_score (Return (example_heap, full_state)) "A" = Some (Num (2 ^ 53))
  ∧ current_score full "A" = Some (Num (2 ^ 53)).
Proof.
  cbv zeta. split_and!.
  - vm_compute. reflexivity.
  - eexists "p1"%string, unknown_profile, 3, _.
    split_and!; [done | done | lia | done | by right | reflexivity].
  - vm_compute. reflexivity.
  - vm_compute. reflexivity.
  - vm_compute. reflexivity.
  - eexists "p1"%string, full_profile, 0, _.
    split_and!; [done | done | lia | done | by left | reflexivity].
  - vm_compute. reflexivity.
  - vm_compute. reflexivity.
Qed.

(** Claim C7 fails as stated: where the counter of the pair AB is 2^53, the
    skip of that pair, pending at index 0, leaves the counter at 2^53 and not
    at one more. *)
Lemma skip_leaves_counter :
  reducer 1 full_heap example_state (PAIR_SKIP 0)
  = Return (skip_pair full_heap 0, example_state)
  ∧ pairs example_profile !! 0 = Some 0
  ∧ skipped (full_heap 0) = (2 ^ 53)%Z
  ∧ skipped (skip_pair full_heap 0 0) = (2 ^ 53)%Z
  ∧ skipped (skip_pair full_heap 0 0) ≠ (2 ^ 53 + 1)%Z.
Proof. split_and!; by vm_compute. Qed.

(** A queue that holds the pair AB twice: the reset of rows with no pair
    drops the second, and the progress of the profile rises from 1 to 2. *)
Lemma reset_rows_drops_duplicates :
  let twice :=
    dispatch 1 (Return (example_heap, empty_state))
      [PROFILE_ADD "p1" "letters" example_nameMap [0; 0; 1]; PAIR_VOTE 2 "A"] in
  let after := dispatch 1 twice [LIST_RESET_ROWS ∅ []] in
  pairs <$> current_profile twice = Some [0; 0]
  ∧ progress <$> current_profile twice = Some 1%Z
  ∧ pairs <$> current_profile after = Some [0]
  ∧ progress <$> current_profile after = Some 2%Z.
Proof. vm_compute. done. Qed.

(** The example state is what the actions of the scenario make. *)
Lemma example_state_created :
  dispatch 1 (Return (example_heap, empty_state))
    [PROFILE_ADD "p1" "letters" example_nameMap [0; 1; 2]]
  = Return (example_heap, example_state).
Proof. vm_compute. done. Qed.

Lemma voted_state_reached :
  dispatch 1 (Return (example_heap, example_state))
    [PAIR_VOTE 0 "A"; PAIR_VOTE 0 "A"; PAIR_VOTE 0 "C"]
  = Return (example_heap, voted_state).
Proof. vm_compute. done. Qed.

Lemma example_state_plain : plain_state example_state.
Proof.
  split; [done |]. intros k p.
  unfold example_state. cbn [profiles].
  intros [<- <-]%lookup_singleton_Some. done.
Qed.

(** The three votes of the scenario are valid votes. *)
Lemma example_votes : votes example_heap example_state 3 voted_state.
Proof.
  eapply (votes_more _ _ 2 _ 1%Z 0%Z "C").
  { eapply (votes_more _ _ 1 _ 1%Z 0%Z "A").
    { eapply (votes_more _ _ 0 _ 1%Z 0%Z "A"); [apply votes_none | | reflexivity].
      exists "p1"%string, example_profile, 0, (candidate "A").
      split_and!; [done | done | lia | done | by left | done]. }
    { eexists "p1"%string, _, 1, _.
      split_and!; [done | reflexivity | lia | done | by left | reflexivity]. }
    reflexivity. }
  { eexists "p1"%string, _, 2, _.
    split_and!; [done | reflexivity | lia | done | by right | reflexivity]. }
  vm_compute. reflexivity.
Qed.

(** *** Instances on the running example *)

Lemma skip_only_counts_witness :
  ∃ state' p',
    reducer 1 example_heap example_state (PAIR_SKIP 1)
      = Return (skip_pair example_heap 1, state')
    ∧ profiles state' !! "p1" = Some p'
    ∧ pairs p' = [0; 1; 2]
    ∧ list_ p' = example_nameMap
    ∧ skipped (skip_pair example_heap 1 1) = 1%Z
    ∧ skip_pair example_heap 1 0 = example_heap 0.
Proof.
  destruct (skip_only_counts 1 example_heap example_state "p1" example_profile 1 1)
    as (state' & p' & Hred & _ & Hp' & Hpairs & _ & Hlist & _ & _ & Hr & Hothers);
    [reflexivity | reflexivity | lia | reflexivity |].
  exists state', p'.
  split; [exact Hred |]. split; [exact Hp' |]. split; [exact Hpairs |].
  split; [exact Hlist |]. split; [by rewrite Hr |]. by apply Hothers.
Defined.

Lemma vote_counts_once_witness :
  (∃ state' p',
     reducer 1 example_heap example_state (PAIR_VOTE 0 "A")
       = Return (example_heap, state')
     ∧ profiles state' !! "p1" = Some p'
     ∧ pairs p' = [1; 2]
     ∧ list_ p' !! "A" = Some (scored (candidate "A") (Num 1))
     ∧ list_ p' !! "B" = Some (candidate "B"))
  ∧ (∃ p', profiles voted_state !! "p1" = Some p'
           ∧ total_score (list_ p') = Num 3
           ∧ length (pairs p') + 3 = 3).
Proof.
  split.
  - destruct (proj1 vote_counts_once 1%Z example_heap example_state "p1"
                example_profile 0%Z 0 "A" (candidate "A"))
      as (state' & p' & Hred & _ & Hp' & _ & Hpairs & _ & _ & Hwin & _ & _ & Hothers);
      [done | done | reflexivity | reflexivity | lia
      | reflexivity | by left | reflexivity |].
    exists state', p'.
    split; [exact Hred |]. split; [exact Hp' |]. split; [exact Hpairs |].
    split; [exact Hwin |]. by rewrite Hothers.
  - destruct (proj2 vote_counts_once 1%Z example_heap empty_state "p1" "letters"
                example_nameMap [0; 1; 2] 3 voted_state)
      as (created & Hadd & Hvotes).
    + done.
    + done.
    + intros i c Hc. unfold example_nameMap in Hc.
      repeat (apply lookup_insert_Some in Hc as [[_ <-]|[_ Hc]]; [done |]).
      by rewrite lookup_empty in Hc.
    + by vm_compute.
    + simpl in Hadd. injection Hadd as <-.
      destruct Hvotes as (p' & _ & Hp' & Htot & Hlen).
      * change {| currentProfile := _; profiles := _ |} with example_state.
        apply example_votes.
      * exists p'. split_and!; done.
Defined.

Lemma reset_rows_adds_new_ids_witness :
  ∃ state1 p1 state2 p2,
    reducer 1 example_heap example_state (LIST_RESET_ROWS example_merge [0; 3])
      = Return (example_heap, state1)
    ∧ profiles state1 !! "p1" = Some p1
    ∧ pairs p1 = [0; 1; 2; 3]
    ∧ reducer 2 example_heap state1 (LIST_RESET_ROWS example_merge [0; 3])
      = Return (example_heap, state2)
    ∧ profiles state2 !! "p1" = Some p2
    ∧ pairs p2 = [0; 1; 2; 3].
Proof.
  destruct (reset_rows_adds_new_ids 1 2 example_heap example_state "p1"
              example_profile example_merge [0; 3] example_merge [0; 3])
    as (state1 & p1 & state2 & p2 & Hred1 & _ & Hp1 & _ & Hpairs1 & Hred2 & _ & Hp2 & Hpairs2);
    [reflexivity | reflexivity | |].
  { intros i Hi. unfold pair_ids. rewrite fmap_app. apply elem_of_app. by right. }
  destruct Hpairs1 as [Hpairs1 _]; [done |].
  exists state1, p1, state2, p2.
  split; [exact Hred1 |]. split; [exact Hp1 |]. split; [exact Hpairs1 |].
  split; [exact Hred2 |]. split; [exact Hp2 |]. by rewrite Hpairs2.
Defined.

Lemma reset_rows_merges_candidates_witness :
  ∃ state' p',
    reducer 1 example_heap voted_state (LIST_RESET_ROWS example_merge [3])
      = Return (example_heap, state')
    ∧ profiles state' !! "p1" = Some p'
    ∧ list_ p' !! "C" = Some (scored (candidate "C") (Num 1))
    ∧ list_ p' !! "A" = Some (candidate "A")
    ∧ list_ p' !! "D" = Some (candidate "D").
Proof.
  destruct (reset_rows_merges_candidates 1 example_heap voted_state "p1"
              voted_profile example_merge [3])
    as (state' & p' & Hred & Hp' & Hkept & Hmerged); [reflexivity | reflexivity |].
  exists state', p'.
  split; [exact Hred |]. split; [exact Hp' |].
  split; [by rewrite Hkept |].
  split; by apply Hmerged.
Defined.


Lemma reset_rows_totalComparisons_witness :
  ∃ state' p',
    reducer 1 example_heap voted_state (LIST_RESET_ROWS example_merge [3])
      = Return (example_heap, state')
    ∧ profiles state' !! "p1" = Some p'
    ∧ totalComparisons p' = 3%Z.
Proof.
  destruct (reset_rows_totalComparisons 1 example_heap voted_state "p1"
              voted_profile example_merge [3])
    as (state' & p' & Hred & _ & Hp' & Htotal); [reflexivity | reflexivity |].
  exists state', p'.
  split; [exact Hred |]. split; [exact Hp' |]. exact Htotal.
Defined.

Lemma progress_by_action_witness :
  (reducer 1 example_heap example_state (PAIR_VOTE 0 "A")
     = Return (example_heap, first_vote_state)
   ∧ (progress example_profile ≤ progress first_vote_profile)%Z)
  ∧ (reducer 1 example_heap voted_state (LIST_RESET_ROWS example_merge [3])
       = Return (example_heap, merged_state)
     ∧ pairs merged_profile = pairs voted_profile ++ [3]
     ∧ progress merged_profile = (progress voted_profile - 1)%Z).
Proof.
  split.
  - split; [vm_compute; reflexivity |].
    apply (progress_by_action 1 example_heap example_state (PAIR_VOTE 0 "A")
             example_heap first_vote_state "p1");
      [vm_compute; reflexivity | reflexivity | reflexivity].
  - split; [vm_compute; reflexivity |].
    destruct (progress_by_action 1 example_heap voted_state
                (LIST_RESET_ROWS example_merge [3]) example_heap merged_state
                "p1" voted_profile merged_profile)
      as (_ & _ & _ & Hcurrent);
      [vm_compute; reflexivity | reflexivity | reflexivity |].
    destruct Hcurrent as [_ Happended]; [reflexivity | done |].
    apply Happended. apply NoDup_nil_2.
Defined.

(** *** Errors of the pair actions *)

(** Property X12.

    [PAIR_VOTE], [PAIR_SKIP] and [LIST_RESET_ROWS] when the current key is no
    own property of [profiles] (as in the initial state, where it is [null]):
    each throws, "No profile selected!" unless the key names a member of
    [Object.prototype] and a [TypeError] of the engine if it does. *)
Theorem no_profile_selected now h state :
  profiles state !! property_key (currentProfile state) = None →
  let error :=
    if inherited (property_key (currentProfile state))
    then TypeError else NoProfileSelected in
  (∀ pairIndex winner,
     reducer now h state (PAIR_VOTE pairIndex winner) = Throw error)
  ∧ (∀ pairIndex, reducer now h state (PAIR_SKIP pairIndex) = Throw error)
  ∧ (∀ nameMap pairList,
       reducer now h state (LIST_RESET_ROWS nameMap pairList) = Throw error).
Proof.
  intros Hnone. cbn zeta. unfold reducer, truthy_at.
  rewrite (bool_decide_eq_false_2 (is_Some _))
    by (rewrite Hnone; by intros [? ?]).
  cbn [orb]. destruct (inherited _); [| done].
  cbn. rewrite Hnone. done.
Qed.

(** Property X13.

    [PAIR_SKIP] throws a [TypeError] exactly when its index is outside the
    pending pairs of the current profile, and then returns no state. *)
Theorem skip_out_of_range now h state cp p pairIndex :
  currentProfile state = Some cp →
  profiles state !! cp = Some p →
  (reducer now h state (PAIR_SKIP pairIndex) = Throw TypeError
   ↔ (pairIndex < 0 ∨ Z.of_nat (length (pairs p)) ≤ pairIndex)%Z)
  ∧ ((0 ≤ pairIndex < Z.of_nat (length (pairs p)))%Z →
       ∃ r state', pairs p !! Z.to_nat pairIndex = Some r
         ∧ reducer now h state (PAIR_SKIP pairIndex) = Return (skip_pair h r, state')).
Proof.
  intros Hcur Hp.
  destruct (Array_get (pairs p) pairIndex) as [r|] eqn:Hget.
  - pose proof Hget as [Hi Hr]%Array_get_Some.
    pose proof (lookup_lt_Some _ _ _ Hr).
    rewrite (reducer_PAIR_SKIP now h state cp p Hcur Hp pairIndex r Hget).
    split; [split; [done | lia] |]. intros _. eauto.
  - rewrite (reducer_PAIR_SKIP_undefined now h state cp p Hcur Hp pairIndex Hget).
    unfold Array_get in Hget.
    destruct (pairIndex <? 0)%Z eqn:Hneg.
    + apply Z.ltb_lt in Hneg. split; [split; [by left | done] | lia].
    + apply Z.ltb_ge in Hneg. apply lookup_ge_None in Hget.
      split; [split; [right; lia | done] | lia].
Qed.

(** *** A new profile *)

(** Property X14.

    [PROFILE_ADD] never throws and looks for no profile of the same id: the
    profile made from the data is stored under [newProfileId], in place of
    the one that was there if there was one, and selected; it has as many
    comparisons as pairs and no progress; the other profiles and the pair
    objects stay as they are. With the id ["__proto__"] nothing is stored. *)
Theorem add_profile_creates now h state newProfileId name nameMap pairList :
  ∃ state',
    reducer now h state (PROFILE_ADD newProfileId name nameMap pairList)
    = Return (h, state')
    ∧ currentProfile state' = Some newProfileId
    ∧ (∀ k, k ≠ newProfileId → profiles state' !! k = profiles state !! k)
    ∧ (newProfileId = "__proto__"%string → profiles state' = profiles state)
    ∧ (newProfileId ≠ "__proto__"%string →
         ∃ p, profiles state' !! newProfileId = Some p
           ∧ Reducers.name p = name
           ∧ list_ p = nameMap
           ∧ dateTime p = now
           ∧ pairs p = pairList
           ∧ totalComparisons p = Z.of_nat (length pairList)
           ∧ progress p = 0%Z).
Proof.
  eexists. split; [reflexivity |]. cbn [currentProfile profiles]. split_and!.
  - done.
  - intros k Hk. by apply spread_assign_lookup_ne.
  - intros ->. apply spread_assign_proto.
  - intros Hne. eexists. split; [by apply spread_assign_lookup_eq |].
    unfold progress. cbn. split_and!; try done. lia.
Qed.

(** *** Skips and votes *)

(** Property X15.

    A skip changes no later vote: after a skip of a pending pair, a vote
    returns the state that it returns without the skip. The skip only shows
    in the counter of the pair object. *)
Theorem skip_then_vote now1 now2 h state cp p skipIndex r pairIndex winner :
  currentProfile state = Some cp →
  profiles state !! cp = Some p →
  Array_get (pairs p) skipIndex = Some r →
  ∃ skipped voted,
    reducer now1 h state (PAIR_SKIP skipIndex) = Return (skip_pair h r, skipped)
    ∧ reducer now2 (skip_pair h r) skipped (PAIR_VOTE pairIndex winner)
      = Return (skip_pair h r, voted)
    ∧ reducer now2 h state (PAIR_VOTE pairIndex winner) = Return (h, voted).
Proof.
  intros Hcur Hp Hget.
  rewrite (reducer_PAIR_SKIP now1 h state cp p Hcur Hp skipIndex r Hget).
  rewrite (reducer_PAIR_VOTE now2 h state cp p Hcur Hp).
  eexists _, _. split; [reflexivity |]. split; [| reflexivity].
  set (p1 := {| name := name p; list_ := list_ p; dateTime := now1;
                pairs := pairs p; totalComparisons := totalComparisons p |}).
  destruct (decide (cp = "__proto__"%string)) as [->|Hne].
  - rewrite spread_assign_proto.
    rewrite (reducer_PAIR_VOTE now2 _ _ "__proto__" p); [| done | done].
    by rewrite !spread_assign_proto.
  - rewrite (reducer_PAIR_VOTE now2 _ _ cp p1);
      [| done | cbn; by apply spread_assign_lookup_eq].
    cbn [profiles name list_ pairs totalComparisons p1]. do 3 f_equal.
    rewrite !spread_assign_insert by done. apply insert_insert_eq.
Qed.

(** Property X16.

    Progress counts the votes: after [PROFILE_ADD] and k valid votes the
    derived progress of the profile is k, of a total that is the number of
    pairs it was created with; there are at most that many valid votes, and
    after that many no pair is pending. *)
Theorem progress_counts_votes now h state newProfileId name nameMap pairList k state' :
  newProfileId ≠ "__proto__"%string →
  ∃ created,
    reducer now h state (PROFILE_ADD newProfileId name nameMap pairList)
    = Return (h, created)
    ∧ (votes h created k state' →
       ∃ p', currentProfile state' = Some newProfileId
             ∧ profiles state' !! newProfileId = Some p'
             ∧ totalComparisons p' = Z.of_nat (length pairList)
             ∧ progress p' = Z.of_nat k
             ∧ k ≤ length pairList
             ∧ (k = length pairList → pairs p' = [])).
Proof.
  intros Hne. eexists. split; [reflexivity |].
  set (created := {| currentProfile := _ |}).
  assert (∀ s0 s, votes h s0 k s → s0 = created →
    ∃ p', currentProfile s = Some newProfileId
          ∧ profiles s !! newProfileId = Some p'
          ∧ totalComparisons p' = Z.of_nat (length pairList)
          ∧ length (pairs p') + k = length pairList) as Hinv.
  { clear state'. intros s0 s Hvotes.
    induction Hvotes as [s|s k s1 now' i w s2 _ IH Hvalid Hred]; intros ->.
    - eexists. split; [done |]. split; [by apply spread_assign_lookup_eq |].
      cbn. split; [done | lia].
    - destruct (IH eq_refl) as (p1 & Hcur & Hp1 & Htot & Hlen).
      destruct Hvalid as (cp & p & r & c & Hcur' & Hp & Hi & Hr & _ & _).
      assert (cp = newProfileId) as -> by congruence.
      assert (p = p1) as -> by congruence.
      rewrite (reducer_PAIR_VOTE now' h s1 newProfileId p1 Hcur Hp1) in Hred.
      injection Hred as <-. eexists. split; [done |].
      split; [by apply spread_assign_lookup_eq |]. cbn.
      split; [done |].
      destruct (Array_splice1_valid _ _ _ Hi Hr) as [_ Hs]. lia. }
  intros Hvotes. destruct (Hinv _ _ Hvotes eq_refl) as (p' & Hcur & Hp' & Htot & Hlen).
  exists p'. split_and!; try done.
  - unfold progress. lia.
  - lia.
  - intros ->. apply nil_length_inv. lia.
Qed.

(** *** Invariants of the store *)

Lemma pair_ids_skip_pair h r l : pair_ids (skip_pair h r) l = pair_ids h l.
Proof.
  unfold pair_ids. apply list_fmap_ext. intros _ r' _.
  unfold skip_pair. by case_decide; subst.
Qed.

Lemma Array_splice1_sublist {A} (l : list A) i : Array_splice1 i l `sublist_of` l.
Proof. unfold Array_splice1. apply sublist_delete. Qed.

(** Property X17.

    The pending pairs keep distinct ids: when the ids of the pending pairs of
    each profile are distinct, and [PROFILE_ADD] brings pairs of distinct
    ids, they are distinct in the state that the reducer returns. *)
Theorem pending_ids_stay_distinct now h state action h' state' :
  pending_ids_distinct h state →
  (∀ newProfileId name nameMap pairList,
     action = PROFILE_ADD newProfileId name nameMap pairList →
     NoDup (pair_ids h pairList)) →
  reducer now h state action = Return (h', state') →
  pending_ids_distinct h' state'.
Proof.
  intros Hinv Hadd Hred k q Hq.
  destruct action; reducer_returns Hred; subst h'; cbn in Hq.
  - by eapply Hinv.
  - apply spread_assign_lookup_cases in Hq as [[_ ->]|Hq]; [| by eapply Hinv].
    cbn. by eapply Hadd.
  - apply spread_assign_lookup_cases in Hq as [[_ ->]|Hq]; [| by eapply Hinv].
    cbn. rewrite dedupe_pairs_keep_first. apply keep_first_ids_NoDup.
  - rewrite pair_ids_skip_pair.
    apply spread_assign_lookup_cases in Hq as [[_ ->]|Hq]; [| by eapply Hinv].
    cbn. by eapply Hinv.
  - apply spread_assign_lookup_cases in Hq as [[_ ->]|Hq]; [| by eapply Hinv].
    cbn. eapply sublist_NoDup; [by eapply Hinv |].
    unfold pair_ids. apply fmap_sublist, Array_splice1_sublist.
  - by eapply Hinv.
Qed.

Lemma dispatch_at_Throw e actions : dispatch_at (Throw e) actions = Throw e.
Proof. induction actions as [|a actions IH]; [done |]. exact IH. Qed.

(** Property X18.

    Whatever actions are dispatched, with whatever clock readings: as long as
    none names a member of [Object.prototype] as a profile and the candidate
    mappings are plain, a state that is returned is plain and its current
    profile, when it is not [null], is a key of [profiles]. *)
Theorem store_invariants_kept h state actions h' state' :
  plain_state state →
  current_is_profile state →
  Forall (λ step, names_own_keys step.2 ∧ plain_action step.2) actions →
  dispatch_at (Return (h, state)) actions = Return (h', state') →
  plain_state state' ∧ current_is_profile state'.
Proof.
  intros Hplain Hcur Hall. revert h state Hplain Hcur.
  induction Hall as [|[now action] actions [Hown Hact] _ IH];
    intros h state Hplain Hcur Hrun.
  - by injection Hrun as <- <-.
  - unfold dispatch_at in Hrun. cbn [foldl] in Hrun. fold dispatch_at in Hrun.
    cbn [fst snd mbind result_bind] in *.
    destruct (reducer now h state action) as [[h1 s1]|e] eqn:Hred.
    + apply (IH h1 s1); [| | done].
      * by eapply reducer_plain.
      * eapply reducer_current_is_profile; [done | | | done].
        -- by intros id' ->.
        -- by intros ? ? ? ? ->.
    + change (dispatch_at (Throw e) actions = Return (h', state')) in Hrun.
      by rewrite dispatch_at_Throw in Hrun.
Qed.

(** *** Resetting rows again *)

(** Property X19.

    [LIST_RESET_ROWS] is idempotent: with the same data and the same clock
    reading, a second reset returns the state that the first returned. *)
Theorem reset_rows_twice now h state cp p nameMap pairList :
  currentProfile state = Some cp →
  profiles state !! cp = Some p →
  ∃ state',
    reducer now h state (LIST_RESET_ROWS nameMap pairList) = Return (h, state')
    ∧ reducer now h state' (LIST_RESET_ROWS nameMap pairList) = Return (h, state').
Proof.
  intros Hcur Hp.
  rewrite (reducer_LIST_RESET_ROWS now h state cp p Hcur Hp).
  eexists. split; [reflexivity |].
  destruct (decide (cp = "__proto__"%string)) as [->|Hne].
  - rewrite spread_assign_proto.
    rewrite (reducer_LIST_RESET_ROWS now h _ "__proto__" p); [| done | done].
    by rewrite !spread_assign_proto.
  - erewrite reducer_LIST_RESET_ROWS;
      [| done | cbn; by apply spread_assign_lookup_eq].
    cbn [profiles name list_ pairs totalComparisons]. do 3 f_equal.
    rewrite !spread_assign_insert by done. rewrite insert_insert_eq.
    f_equal. f_equal.
    + unfold spread2. by rewrite (assoc_L (∪)), (idemp_L (∪)).
    + apply dedupe_pairs_again. unfold pair_ids. rewrite fmap_app.
      intros i Hi. apply elem_of_app. by right.
Qed.

(** *** What no action does *)

(** Property X22.

    The pair objects: only [PAIR_SKIP] writes into one, and what it writes is
    the counter. Whatever the action, each pair object keeps its id and its
    two sides, and its counter is what it was or what [skipped++] makes of
    it, the double nearest to one more: for a counter from -2^53 to 2^53, what
    it was or one more. *)
Theorem pair_objects_kept now h state action h' state' :
  reducer now h state action = Return (h', state') →
  match action with
  | PAIR_SKIP pairIndex =>
      ∃ p r, profiles state !! property_key (currentProfile state) = Some p
             ∧ Array_get (pairs p) pairIndex = Some r
             ∧ h' = skip_pair h r
  | _ => h' = h
  end
  ∧ ∀ r, id (h' r) = id (h r)
         ∧ leftId (h' r) = leftId (h r)
         ∧ rightId (h' r) = rightId (h r)
         ∧ (skipped (h' r) = skipped (h r)
            ∨ skipped (h' r) = double_of (skipped (h r) + 1))
         ∧ ((- 2 ^ 53 ≤ skipped (h r) ≤ 2 ^ 53)%Z →
            (skipped (h r) ≤ skipped (h' r) ≤ skipped (h r) + 1)%Z).
Proof.
  intros Hred.
  assert (∀ r, id (h r) = id (h r) ∧ leftId (h r) = leftId (h r)
               ∧ rightId (h r) = rightId (h r)
               ∧ (skipped (h r) = skipped (h r)
                  ∨ skipped (h r) = double_of (skipped (h r) + 1))
               ∧ ((- 2 ^ 53 ≤ skipped (h r) ≤ 2 ^ 53)%Z →
                  (skipped (h r) ≤ skipped (h r) ≤ skipped (h r) + 1)%Z)) as Hsame
    by (intros r; split_and!; [done | done | done | by left | lia]).
  destruct action; reducer_returns Hred; subst h'; try (by split).
  split; [eauto |].
  intros r'. unfold skip_pair. case_decide as Hr; [subst r' | apply Hsame].
  cbn. split_and!; [done | done | done | by right |].
  intros Hsafe.
  destruct (decide (skipped (h r) = 2 ^ 53)%Z) as [-> | Hne]; [by vm_compute |].
  rewrite double_of_exact; lia.
Qed.

(** Property X23.

    Nothing is removed: whatever the action, every profile of the state is
    a profile of the state that the reducer returns. Apart from
    [PROFILE_ADD], which replaces the profile of its id, the profile keeps
    its name, its [totalComparisons] and each key of its candidates. *)
Theorem nothing_is_removed now h state action h' state' k p :
  reducer now h state action = Return (h', state') →
  profiles state !! k = Some p →
  ∃ p', profiles state' !! k = Some p'
        ∧ match action with
          | PROFILE_ADD newProfileId _ _ _ => k ≠ newProfileId → p' = p
          | _ =>
              name p' = name p
              ∧ totalComparisons p' = totalComparisons p
              ∧ ∀ c, is_Some (list_ p !! c) → is_Some (list_ p' !! c)
          end.
Proof.
  intros Hred Hp.
  assert (∀ key q,
    profiles state !! key = Some q →
    ∀ q', name q' = name q → totalComparisons q' = totalComparisons q →
          (∀ c, is_Some (list_ q !! c) → is_Some (list_ q' !! c)) →
    ∃ p', spread2 (profiles state) (assign key q' ∅) !! k = Some p'
          ∧ name p' = name p
          ∧ totalComparisons p' = totalComparisons p
          ∧ ∀ c, is_Some (list_ p !! c) → is_Some (list_ p' !! c)) as Hwrite.
  { intros key q Hq q' Hname Htotal Hlist.
    destruct (decide (k = key)) as [->|Hne].
    - assert (q = p) as -> by congruence.
      rewrite (spread_assign_lookup_own _ _ p) by done.
      case_decide; eexists; (split; [done |]); done.
    - rewrite spread_assign_lookup_ne by done. by exists p. }
  destruct action; reducer_returns Hred; cbn [profiles].
  - by exists p.
  - destruct (decide (k = newProfileId)) as [->|Hne].
    + rewrite (spread_assign_lookup_own _ _ p) by done. eexists. split; [done |]. done.
    + rewrite spread_assign_lookup_ne by done. by exists p.
  - eapply Hwrite; [done | done | done |]. cbn. intros c [x Hx].
    unfold spread2. destruct (nameMap !! c) as [y|] eqn:Hy.
    + exists y. by apply lookup_union_Some_l.
    + exists x. by rewrite lookup_union_r.
  - eapply Hwrite; done.
  - eapply Hwrite; [done | done | done |]. cbn. intros c Hc.
    by apply spread_assign_is_Some.
  - by exists p.
Qed.

(** *** Further instances on the running example *)

Lemma no_profile_selected_witness :
  reducer 1 example_heap empty_state (PAIR_VOTE 0 "A") = Throw NoProfileSelected
  ∧ reducer 1 example_heap empty_state (PAIR_SKIP 0) = Throw NoProfileSelected.
Proof.
  destruct (no_profile_selected 1 example_heap empty_state) as (Hvote & Hskip & _);
    [reflexivity |].
  split; [apply Hvote | apply Hskip].
Defined.

Lemma skip_out_of_range_witness :
  reducer 1 example_heap example_state (PAIR_SKIP 3) = Throw TypeError.
Proof.
  destruct (skip_out_of_range 1 example_heap example_state "p1" example_profile 3)
    as [[_ Hthrows] _]; [reflexivity | reflexivity |].
  apply Hthrows. right. simpl. lia.
Defined.

Lemma skip_then_vote_witness :
  ∃ skipped voted,
    reducer 1 example_heap example_state (PAIR_SKIP 1)
    = Return (skip_pair example_heap 1, skipped)
    ∧ reducer 2 (skip_pair example_heap 1) skipped (PAIR_VOTE 0 "A")
      = Return (skip_pair example_heap 1, voted)
    ∧ reducer 2 example_heap example_state (PAIR_VOTE 0 "A")
      = Return (example_heap, voted).
Proof.
  apply (skip_then_vote 1 2 example_heap example_state "p1" example_profile 1 1 0 "A");
    reflexivity.
Defined.

Lemma progress_counts_votes_witness :
  ∃ p', currentProfile voted_state = Some "p1"%string
        ∧ profiles voted_state !! "p1" = Some p'
        ∧ totalComparisons p' = 3%Z
        ∧ progress p' = 3%Z
        ∧ pairs p' = [].
Proof.
  destruct (progress_counts_votes 1 example_heap empty_state "p1" "letters"
              example_nameMap [0; 1; 2] 3 voted_state)
    as (created & Hadd & Hvotes); [done |].
  simpl in Hadd. injection Hadd as <-.
  destruct Hvotes as (p' & Hcur & Hp' & Htotal & Hprogress & _ & Hempty).
  - change {| currentProfile := _; profiles := _ |} with example_state.
    apply example_votes.
  - exists p'. split; [exact Hcur |]. split; [exact Hp' |].
    split; [exact Htotal |]. split; [exact Hprogress |]. by apply Hempty.
Defined.

Lemma pending_ids_stay_distinct_witness :
  NoDup (pair_ids example_heap (pairs first_vote_profile)).
Proof.
  apply (pending_ids_stay_distinct 1 example_heap example_state (PAIR_VOTE 0 "A")
           example_heap first_vote_state) with (k := "p1"%string).
  - intros k p Hp. unfold example_state in Hp. cbn in Hp.
    apply lookup_singleton_Some in Hp as [_ <-].
    apply (bool_decide_unpack _). vm_compute. exact I.
  - intros ? ? ? ? [=].
  - vm_compute. reflexivity.
  - reflexivity.
Defined.

Lemma store_invariants_kept_witness :
  plain_state first_vote_state ∧ current_is_profile first_vote_state.
Proof.
  apply (store_invariants_kept example_heap empty_state
           [(1%Z, PROFILE_ADD "p1" "letters" example_nameMap [0; 1; 2]);
            (1%Z, PAIR_VOTE 0 "A")]
           example_heap first_vote_state).
  - apply empty_state_plain.
  - exact I.
  - repeat (apply Forall_cons; split; [split; [try exact I | try exact I] |]).
    + cbn. done.
    + cbn. reflexivity.
    + apply Forall_nil_2.
  - vm_compute. reflexivity.
Defined.

Lemma reset_rows_twice_witness :
  ∃ state',
    reducer 1 example_heap example_state (LIST_RESET_ROWS example_merge [0; 3])
    = Return (example_heap, state')
    ∧ reducer 1 example_heap state' (LIST_RESET_ROWS example_merge [0; 3])
      = Return (example_heap, state').
Proof.
  apply (reset_rows_twice 1 example_heap example_state "p1" example_profile);
    reflexivity.
Defined.

Lemma pair_objects_kept_witness :
  id (skip_pair example_heap 1 1) = id (example_heap 1)
  ∧ leftId (skip_pair example_heap 1 1) = leftId (example_heap 1)
  ∧ rightId (skip_pair example_heap 1 1) = rightId (example_heap 1)
  ∧ (skipped (example_heap 1%nat) ≤ skipped (skip_pair example_heap 1%nat 1%nat)
     ≤ skipped (example_heap 1%nat) + 1)%Z.
Proof.
  destruct (pair_objects_kept 1 example_heap example_state (PAIR_SKIP 1)
              (skip_pair example_heap 1)
              {| currentProfile := Some "p1"%string;
                 profiles := {[ "p1"%string := example_profile ]} |})
    as [_ Hkept].
  - vm_compute. reflexivity.
  - destruct (Hkept 1) as (Hid & Hleft & Hright & _ & Hcounter).
    split; [exact Hid |]. split; [exact Hleft |]. split; [exact Hright |].
    apply Hcounter. by vm_compute.
Defined.

Lemma nothing_is_removed_witness :
  ∃ p', profiles first_vote_state !! "p1" = Some p'
        ∧ name p' = name example_profile
        ∧ totalComparisons p' = totalComparisons example_profile
        ∧ ∀ c, is_Some (list_ example_profile !! c) → is_Some (list_ p' !! c).
Proof.
  apply (nothing_is_removed 1 example_heap example_state (PAIR_VOTE 0 "A")
           example_heap first_vote_state "p1" example_profile).
  - vm_compute. reflexivity.
  - reflexivity.
Defined.

End ReducersFacts.

(** ** Selecting a profile *)

(** Property X11.

    [PROFILE_SET_CURRENT] with an id that is no name of [Object.prototype]:
    the error is thrown exactly when the id is no key of [profiles], and
    otherwise only [currentProfile] changes. Both reducers agree. *)
Lemma set_current_own_names now h (state : Reducers.ProfileState) id :
  inherited id = false →
  (Reducers.profiles state !! id = None →
   Reducers.reducer now h state (Reducers.PROFILE_SET_CURRENT id)
   = Throw (InvalidProfile id))
  ∧ (is_Some (Reducers.profiles state !! id) →
     Reducers.reducer now h state (Reducers.PROFILE_SET_CURRENT id)
     = Return (h, {| Reducers.currentProfile := Some id;
                     Reducers.profiles := Reducers.profiles state |})).
Proof.
  intros Hid. unfold Reducers.reducer. split.
  - intros Hnone.
    by rewrite (proj2 (truthy_at_false _ _) (conj Hnone Hid)).
  - intros [p Hp]. by rewrite (truthy_at_own _ _ _ Hp).
Qed.

(** Property X10.

    The same for the reducer of the context: the error is thrown exactly
    when the id is no key of [profiles], and otherwise only [currentProfile]
    changes. *)
Lemma set_current_own_names_context env (state : ProfileContext.ProfileState) id :
  inherited id = false →
  (ProfileContext.profiles state !! id = None →
   ProfileContext.reducer env state (ProfileContext.PROFILE_SET_CURRENT id)
   = Throw (InvalidProfile id))
  ∧ (is_Some (ProfileContext.profiles state !! id) →
     ProfileContext.reducer env state (ProfileContext.PROFILE_SET_CURRENT id)
     = Return {| ProfileContext.currentProfile := Some id;
                 ProfileContext.profiles := ProfileContext.profiles state |}).
Proof.
  intros Hid. unfold ProfileContext.reducer. split.
  - intros Hnone.
    by rewrite (proj2 (truthy_at_false _ _) (conj Hnone Hid)).
  - intros [p Hp]. by rewrite (truthy_at_own _ _ _ Hp).
Qed.

(** Claim C8 at the id ["constructor"]: it is no key of the empty [profiles],
    yet [state.profiles["constructor"]] is the function every object inherits,
    the test [!state.profiles[currentProfileId]] is false, and both reducers
    return a state whose current profile is ["constructor"] where the claim
    has the error. *)
Theorem set_current_inherited_name (now : Z) (h : Reducers.Heap)
    (env : ProfileContext.Env) :
  Reducers.profiles Reducers.empty_state !! "constructor" = None
  ∧ Reducers.reducer now h Reducers.empty_state
      (Reducers.PROFILE_SET_CURRENT "constructor")
    = Return (h, {| Reducers.currentProfile := Some "constructor"%string;
                    Reducers.profiles := ∅ |})
  ∧ ProfileContext.profiles ProfileContext.initialState !! "constructor" = None
  ∧ ProfileContext.reducer env ProfileContext.initialState
      (ProfileContext.PROFILE_SET_CURRENT "constructor")
    = Return {| ProfileContext.currentProfile := Some "constructor"%string;
                ProfileContext.profiles := ∅ |}.
Proof. split_and!; done. Qed.

(** Claim C10 at the same action: the initial state, whose current profile
    is [null], satisfies the invariant, and the state that both reducers
    return for [PROFILE_SET_CURRENT] of ["constructor"] does not: its current
    profile keys no entry of [profiles]. *)
Theorem set_current_breaks_invariant (now : Z) (h : Reducers.Heap)
    (env : ProfileContext.Env) :
  Reducers.current_is_profile Reducers.empty_state
  ∧ (∃ state',
       Reducers.reducer now h Reducers.empty_state
         (Reducers.PROFILE_SET_CURRENT "constructor") = Return (h, state')
       ∧ ¬ Reducers.current_is_profile state')
  ∧ ProfileContext.current_is_profile ProfileContext.initialState
  ∧ (∃ state',
       ProfileContext.reducer env ProfileContext.initialState
         (ProfileContext.PROFILE_SET_CURRENT "constructor") = Return state'
       ∧ ¬ ProfileContext.current_is_profile state').
Proof.
  split_and!.
  - done.
  - eexists. split; [done |]. intros [p Hp]. cbn in Hp. by rewrite lookup_empty in Hp.
  - done.
  - eexists. split; [done |]. intros [p Hp]. cbn in Hp. by rewrite lookup_empty in Hp.
Qed.

Lemma set_current_own_names_witness :
  Reducers.reducer 1 Reducers.example_heap Reducers.example_state
    (Reducers.PROFILE_SET_CURRENT "p2")
  = Throw (InvalidProfile "p2")
  ∧ Reducers.reducer 1 Reducers.example_heap Reducers.example_state
      (Reducers.PROFILE_SET_CURRENT "p1")
    = Return (Reducers.example_heap, Reducers.example_state).
Proof.
  split.
  - apply (set_current_own_names 1 Reducers.example_heap Reducers.example_state "p2");
      reflexivity.
  - apply (set_current_own_names 1 Reducers.example_heap Reducers.example_state "p1");
      [reflexivity | eexists; reflexivity].
Defined.

Lemma set_current_own_names_context_witness :
  ProfileContext.reducer ProfileContext.example_env ProfileContext.saved_state
    (ProfileContext.PROFILE_SET_CURRENT "letters")
  = Throw (InvalidProfile "letters")
  ∧ ProfileContext.reducer ProfileContext.example_env ProfileContext.saved_state
      (ProfileContext.PROFILE_SET_CURRENT "letters_1700000000000_k7")
    = Return {| ProfileContext.currentProfile := Some "letters_1700000000000_k7"%string;
                ProfileContext.profiles :=
                  ProfileContext.profiles ProfileContext.saved_state |}.
Proof.
  split.
  - apply (set_current_own_names_context ProfileContext.example_env
             ProfileContext.saved_state "letters"); reflexivity.
  - apply (set_current_own_names_context ProfileContext.example_env
             ProfileContext.saved_state "letters_1700000000000_k7");
      [reflexivity | eexists; reflexivity].
Defined.

(** ** Facts about the split of a string *)

Section split.

Lemma append_String c s t : String c s +:+ t = String c (s +:+ t).
Proof. done. Qed.

Lemma append_nil_r s : s +:+ "" = s.
Proof. induction s as [|c s IH]; [done |]. by rewrite append_String, IH. Qed.

Lemma append_assoc s t u : (s +:+ t) +:+ u = s +:+ t +:+ u.
Proof. induction s as [|c s IH]; [done |]. by rewrite !append_String, IH. Qed.

Lemma prefix_append separator rest : String.prefix separator (separator +:+ rest) = true.
Proof.
  induction separator as [|c separator IH]; [by destruct rest |].
  rewrite append_String. cbn [String.prefix]. by destruct (ascii_dec c c).
Qed.

Lemma split_from_skip separator pre piece rest :
  split_from separator (String.length pre) piece (pre +:+ rest)
  = split_from separator 0 piece rest.
Proof. induction pre as [|c pre IH]; [by destruct rest |]. exact IH. Qed.

(** At an occurrence of the separator a piece ends and the search goes on
    behind the occurrence. *)
Lemma split_from_match separator piece rest :
  separator ≠ EmptyString →
  split_from separator 0 piece (separator +:+ rest)
  = piece :: split_from separator 0 "" rest.
Proof.
  intros Hne. pose proof (prefix_append separator rest) as Hpre.
  destruct separator as [|c separator]; [done |].
  rewrite append_String in *. cbn [split_from]. rewrite Hpre.
  replace (String.length (String c separator) - 1) with (String.length separator)
    by (cbn [String.length]; lia).
  by rewrite split_from_skip.
Qed.

Lemma split_from_piece separator piece s rest :
  separator ≠ EmptyString →
  no_match_in separator s (separator +:+ rest) →
  split_from separator 0 piece (s +:+ separator +:+ rest)
  = (piece +:+ s) :: split_from separator 0 "" rest.
Proof.
  intros Hne. revert piece. induction s as [|c s IH]; intros piece Hs.
  - rewrite append_nil_r. change ("" +:+ separator +:+ rest) with (separator +:+ rest).
    by apply split_from_match.
  - destruct Hs as [Hc Hs]. rewrite append_String in *. cbn [split_from].
    rewrite Hc, IH by done. by rewrite append_assoc.
Qed.

Lemma split_from_last separator piece s :
  no_match_in separator s "" →
  split_from separator 0 piece s = [piece +:+ s].
Proof.
  revert piece. induction s as [|c s IH]; intros piece Hs.
  - by rewrite append_nil_r.
  - destruct Hs as [Hc Hs]. rewrite append_nil_r in Hc. cbn [split_from].
    rewrite Hc, IH by done. by rewrite append_assoc.
Qed.

Lemma occurs_String separator c s :
  occurs separator (String c s) = false →
  String.prefix separator (String c s) = false ∧ occurs separator s = false.
Proof. cbn [occurs]. by intros [? ?]%orb_false_iff. Qed.

(** A separator of one character. *)
Lemma no_match_in_char c s behind :
  occurs (String c "") s = false → no_match_in (String c "") s behind.
Proof.
  induction s as [|d s IH]; [done |].
  intros [Hd Hs]%occurs_String. split; [| by apply IH].
  rewrite append_String. cbn [String.prefix] in *.
  destruct (ascii_dec c d); [| done]. by destruct s.
Qed.

Lemma occurs_char_append c s t :
  occurs (String c "") (s +:+ t)
  = occurs (String c "") s || occurs (String c "") t.
Proof.
  induction s as [|d s IH].
  - change ("" +:+ t) with t. by destruct t.
  - rewrite append_String. cbn [occurs String.prefix]. rewrite IH.
    destruct (ascii_dec c d); [| done].
    assert (∀ x, String.prefix "" x = true) as Hp by (by intros []).
    by rewrite !Hp.
Qed.

Lemma no_match_in_end separator s :
  occurs separator s = false → no_match_in separator s "".
Proof.
  induction s as [|c s IH]; [done |].
  intros [Hc Hs]%occurs_String. split; [| by apply IH].
  by rewrite append_nil_r.
Qed.

End split.

Module EditProfileFacts.
Import ProfileContext EditProfile.

(** ** Facts about the edit form *)

Lemma prefix_nil s : String.prefix "" s = true.
Proof. by destruct s. Qed.

Lemma no_match_in_name name behind :
  occurs SEPARATOR name = false → ends_with_space name = false →
  no_match_in SEPARATOR name behind.
Proof.
  induction name as [|c name IH]; [done |].
  intros [Hc Hocc]%occurs_String Hend. split.
  - clear IH Hocc. unfold SEPARATOR in *.
    destruct name as [|c1 [|c2 [|c3 name]]]; rewrite ?append_String;
      cbn [String.prefix ends_with_space] in *;
      repeat (destruct (ascii_dec _ _) as [<-|]; [| done]);
      try (by rewrite bool_decide_eq_true_2 in Hend).
    by rewrite prefix_nil in Hc.
  - apply IH; [done |]. by destruct name.
Qed.

(** A row written for a candidate is read as that candidate. *)
Lemma parse_row_write_row it : writable it → parse_row (write_row it) = it.
Proof.
  destruct it as [n [i|]]; unfold writable, write_row, parse_row, String_split;
    cbn [name image].
  - intros (_ & Hn & Hend & _ & Hi).
    rewrite split_from_piece; [| done | by apply no_match_in_name].
    rewrite split_from_last by (by apply no_match_in_end). done.
  - intros (_ & Hn & _).
    rewrite split_from_last by (by apply no_match_in_end). done.
Qed.

Lemma write_row_line it : writable it → occurs line_feed (write_row it) = false.
Proof.
  destruct it as [n [i|]]; unfold writable, write_row; cbn [name image].
  - intros (Hn & _ & _ & Hi & _). unfold line_feed in *.
    by rewrite !occurs_char_append, Hn, Hi.
  - by intros (Hn & _).
Qed.

Lemma split_lines rows :
  rows ≠ [] → Forall (λ row, occurs line_feed row = false) rows →
  String_split line_feed (String.concat line_feed rows) = rows.
Proof.
  unfold String_split. intros Hne Hrows.
  induction Hrows as [|row rows Hrow Hrows IH]; [done |].
  destruct rows as [|row' rows].
  - cbn [String.concat]. by rewrite split_from_last by (by apply no_match_in_char).
  - change (String.concat line_feed (row :: row' :: rows))
      with (row +:+ line_feed +:+ String.concat line_feed (row' :: rows)).
    rewrite split_from_piece; [| done | by apply no_match_in_char].
    by rewrite IH.
Qed.

(** Property X20.

    What is written is what is read: of a list of candidates that were
    written as rows, one candidate a row, the save button reads the
    candidates that have a name or an image that is not empty, in their
    order, and drops the rows of the others (the empty rows); it reads the
    whole list when each candidate has a name or an image. *)
Theorem parse_list_write_list (l : list ComparisonItem) :
  Forall writable l →
  parse_list (write_list l) = filter (λ it, named_or_pictured it = true) l
  ∧ (Forall (λ it, named_or_pictured it = true) l →
     parse_list (write_list l) = l).
Proof.
  intros Hl.
  assert (parse_list (write_list l) = filter (λ it, named_or_pictured it = true) l)
    as Hread.
  { destruct (decide (l = [])) as [->|Hne]; [done |].
    unfold parse_list, write_list. rewrite split_lines.
    - rewrite <- list_fmap_compose. f_equal.
      clear Hne. induction Hl as [|it l Hit _ IH]; [done |].
      rewrite fmap_cons, IH. cbn. by rewrite parse_row_write_row.
    - by destruct l.
    - apply Forall_fmap. eapply Forall_impl; [exact Hl |].
      intros it Hit. by apply write_row_line. }
  split; [done |]. intros Hnamed. rewrite Hread.
  clear Hl Hread. induction Hnamed as [|it l Hit _ IH]; [done |].
  rewrite filter_cons_True by done. by rewrite IH.
Qed.

(** *** What a row is read as *)

Lemma prefix_append_r separator s behind :
  String.prefix separator s = true → String.prefix separator (s +:+ behind) = true.
Proof.
  revert s. induction separator as [|c separator IH]; intros s.
  - intros _. apply prefix_nil.
  - destruct s as [|d s]; [done |]. rewrite append_String. cbn [String.prefix].
    destruct (ascii_dec c d); [apply IH | done].
Qed.

Lemma prefix_split separator s :
  String.prefix separator s = true → ∃ rest, s = separator +:+ rest.
Proof.
  revert s. induction separator as [|c separator IH]; intros s.
  - intros _. by exists s.
  - destruct s as [|d s]; [done |]. cbn [String.prefix].
    destruct (ascii_dec c d) as [<-|]; [| done].
    intros [rest ->]%IH. by exists rest.
Qed.

Lemma length_append s t : String.length (s +:+ t) = String.length s + String.length t.
Proof.
  induction s as [|c s IH]; [done |]. rewrite append_String. cbn [String.length].
  by rewrite IH.
Qed.

Lemma no_match_in_occurs separator s behind :
  separator ≠ EmptyString →
  no_match_in separator s behind → occurs separator s = false.
Proof.
  intros Hne. induction s as [|c s IH].
  - intros _. by destruct separator.
  - intros [Hc Hs]. cbn [occurs]. rewrite (IH Hs), orb_false_r.
    destruct (String.prefix separator (String c s)) eqn:Hpre; [| done].
    by rewrite (prefix_append_r _ _ behind Hpre) in Hc.
Qed.

Lemma no_match_in_snoc separator piece c s :
  no_match_in separator piece (String c s) →
  String.prefix separator (String c s) = false →
  no_match_in separator (piece +:+ String c "") s.
Proof.
  intros Hpiece Hc. induction piece as [|d piece IH].
  - by split.
  - destruct Hpiece as [Hd Hpiece]. rewrite append_String in *.
    split; [| by apply IH].
    rewrite append_String, append_assoc. exact Hd.
Qed.

(** The pieces of a split have no separator in them, and joined by the
    separator they are the string that was split. *)
Lemma split_from_pieces separator n s piece :
  separator ≠ EmptyString →
  String.length s ≤ n →
  no_match_in separator piece s →
  Forall (λ p, occurs separator p = false) (split_from separator 0 piece s)
  ∧ String.concat separator (split_from separator 0 piece s) = piece +:+ s.
Proof.
  intros Hne. revert s piece. induction n as [|n IH]; intros s piece Hlen Hpiece.
  - destruct s; [| cbn in Hlen; lia]. cbn [split_from String.concat].
    split; [| by rewrite append_nil_r]. apply Forall_singleton.
    by eapply no_match_in_occurs.
  - destruct s as [|c s].
    { cbn [split_from String.concat]. split; [| by rewrite append_nil_r].
      apply Forall_singleton. by eapply no_match_in_occurs. }
    destruct (String.prefix separator (String c s)) eqn:Hpre.
    + destruct (prefix_split _ _ Hpre) as [rest Hrest]. rewrite Hrest in *.
      rewrite split_from_match by done.
      destruct (IH rest "") as [Hclean Hjoin]; [| done |].
      { rewrite length_append in Hlen. destruct separator; [done |].
        cbn [String.length] in Hlen. lia. }
      split.
      * apply Forall_cons. split; [by eapply no_match_in_occurs | done].
      * destruct (split_from separator 0 "" rest) as [|p ps] eqn:Hsplit.
        { by destruct rest. }
        change (String.concat separator (piece :: p :: ps))
          with (piece +:+ separator +:+ String.concat separator (p :: ps)).
        by rewrite Hjoin.
    + cbn [split_from]. rewrite Hpre.
      destruct (IH s (piece +:+ String c "")) as [Hclean Hjoin].
      * cbn [String.length] in Hlen. lia.
      * by apply no_match_in_snoc.
      * split; [done |]. by rewrite Hjoin, append_assoc.
Qed.

(** A split, at its first piece: the string has no separator and is the one
    piece, or the first piece is what stands before the first separator and
    the split goes on behind that separator. *)
Lemma split_from_head separator piece s :
  separator ≠ EmptyString →
  no_match_in separator piece s →
  (split_from separator 0 piece s = [piece +:+ s]
   ∧ no_match_in separator (piece +:+ s) "")
  ∨ (∃ s1 rest,
       s = s1 +:+ separator +:+ rest
       ∧ split_from separator 0 piece s
         = (piece +:+ s1) :: split_from separator 0 "" rest
       ∧ no_match_in separator (piece +:+ s1) (separator +:+ rest)).
Proof.
  intros Hne. revert piece. induction s as [|c s IH]; intros piece Hpiece.
  - left. rewrite append_nil_r. done.
  - destruct (String.prefix separator (String c s)) eqn:Hpre.
    + right. destruct (prefix_split _ _ Hpre) as [rest Hrest].
      exists "", rest. rewrite append_nil_r, Hrest in *.
      split; [done |]. split; [by apply split_from_match | done].
    + cbn [split_from]. rewrite Hpre.
      destruct (IH (piece +:+ String c "")) as [[Hone Hclean]|(s1 & rest & -> & Hsplit & Hclean)];
        [by apply no_match_in_snoc | |].
      * left. rewrite append_assoc in Hone, Hclean. done.
      * right. exists (String c s1), rest.
        rewrite append_assoc in Hsplit, Hclean. done.
Qed.

(** Property X21.

    A row, read: the name is the row up to the first separator and the image
    what stands between the first separator and the next behind it; what
    stands behind that one is dropped. The candidate that [parse_row] returns
    is read from the row in this way, and it is the only one that is. Neither
    its name nor its image has the separator in it, and a row without
    separator is a name without image. *)
Theorem parse_row_reads (row : string) :
  reads_as row (parse_row row)
  ∧ (∀ it, reads_as row it → it = parse_row row)
  ∧ occurs SEPARATOR (name (parse_row row)) = false
  ∧ (∀ i, image (parse_row row) = Some i → occurs SEPARATOR i = false)
  ∧ (occurs SEPARATOR row = false →
     parse_row row = {| name := row; image := None |}).
Proof.
  assert (reads_as row (parse_row row)) as Hreads.
  { unfold parse_row, String_split, reads_as.
    destruct (split_from_head SEPARATOR "" row)
      as [[-> Hclean]|(n & rest & -> & -> & Hn)]; [done | done | |].
    - cbn [name image]. split; [done |]. by eapply no_match_in_occurs.
    - change ("" +:+ n) with n in *.
      destruct (split_from_head SEPARATOR "" rest)
        as [[-> Hclean]|(i & rest' & -> & -> & Hi)]; [done | done | |];
        cbn [name image].
      + exists "". rewrite append_nil_r. split_and!; [done | done | done | by left].
      + change ("" +:+ i) with i in *.
        exists (SEPARATOR +:+ rest'). split_and!; [done | done | done |].
        right. apply prefix_append. }
  assert (∀ it, reads_as row it → it = parse_row row) as Honly.
  { intros [n [i|]]; unfold reads_as, parse_row, String_split; cbn [name image].
    - intros (dropped & -> & Hn & Hi & Hdropped).
      rewrite split_from_piece by done. change ("" +:+ n) with n.
      destruct Hdropped as [-> | [rest' ->]%prefix_split].
      + rewrite append_nil_r in *. by rewrite split_from_last.
      + by rewrite split_from_piece.
    - intros [-> Hrow]. by rewrite split_from_last by (by apply no_match_in_end). }
  split; [done |]. split; [done |].
  unfold reads_as in Hreads. split_and!.
  - destruct (image (parse_row row)) as [i|].
    + destruct Hreads as (dropped & _ & Hn & _). by eapply no_match_in_occurs.
    + destruct Hreads as [<- Hrow]. done.
  - intros i Hi. rewrite Hi in Hreads.
    destruct Hreads as (dropped & _ & _ & Hclean & _). by eapply no_match_in_occurs.
  - intros Hrow. symmetry. apply Honly. by split.
Qed.

Lemma parse_list_write_list_witness :
  write_list example_items
  = ("Item 1    https://example.org/1.png" +:+ line_feed +:+ "Item 2")%string
  ∧ parse_list (write_list example_items) = example_items.
Proof.
  split; [reflexivity |].
  apply (parse_list_write_list example_items).
  - repeat (apply Forall_cons; split; [repeat split; reflexivity |]).
    apply Forall_nil_2.
  - repeat (apply Forall_cons; split; [reflexivity |]). apply Forall_nil_2.
Defined.

End EditProfileFacts.
